(** * BusPulse: the live-fleet list kept by [App] and the markers kept by [LiveMap]

    A shallow embedding of [src/srcApp.js]:
    - the realtime handler of the ['fleet-updates'] channel, which folds
      [INSERT] / [UPDATE] / [DELETE] payloads into the [buses] state;
    - the driver's position callback, which writes to the [live_fleet] table;
    - the projection handed to the driver's map and the effect of [LiveMap]
      that reconciles its marker table with the list of buses.

    Rows of [live_fleet] reach the client as JSON objects, so they are
    modelled as finite maps from property names to JSON values; reading a
    property that is not there gives [None] (JavaScript's [undefined]). *)

From Stdlib Require Import Floats.PrimFloat.
From stdpp Require Import base option list strings gmap.

#[local] Set Warnings "-inexact-float".

(** ** JSON values and strict equality *)

Module Js.

(** The values a column of [live_fleet] takes once serialised: [null],
    booleans, numbers (IEEE doubles, for FLOAT8) and strings (UUID, TEXT,
    TIMESTAMPTZ). *)
Inductive value : Type :=
| VNull
| VBool (b : bool)
| VNum (x : float)
| VStr (s : string).

(** [a === b] on the result of two property reads. Numbers compare as IEEE
    doubles do (so NaN differs from itself), values of different types are
    never equal, and [undefined === undefined]. *)
Definition strict_eq (a b : option value) : bool :=
  match a, b with
  | None, None => true
  | Some VNull, Some VNull => true
  | Some (VBool x), Some (VBool y) => Bool.eqb x y
  | Some (VNum x), Some (VNum y) => PrimFloat.eqb x y
  | Some (VStr x), Some (VStr y) => String.eqb x y
  | _, _ => false
  end.

End Js.

Import Js.

(** A row of [live_fleet] as the client holds it: a JavaScript object. *)
Abbreviation row := (gmap string value).

(** ** The realtime handler *)

Module Fleet.

(** What the realtime client hands to the callback. Both records are always
    objects: the client starts from [{new: {}, old: {}}] and fills in the one
    the event type carries. *)
Record change : Type := Change {
  eventType : string;
  new : row;
  old : row
}.

(** The callback registered with [.on('postgres_changes', ...)], as the
    function from the previous [buses] state to the next one. When no branch
    is taken [setBuses] is not called and the state stays as it is. *)
Definition on_change (payload : change) (prev : list row) : list row :=
  if String.eqb (eventType payload) "INSERT" then
    prev ++ [new payload]
  else if String.eqb (eventType payload) "UPDATE" then
    (λ b, if strict_eq (b !! "id") (new payload !! "id")
          then new payload else b) <$> prev
  else if String.eqb (eventType payload) "DELETE" then
    filter (λ b, strict_eq (b !! "id") (old payload !! "id") = false) prev
  else prev.

(** The function mapped over [prev] by the UPDATE branch, under a name. *)
Definition replace_by (n b : row) : row :=
  if strict_eq (b !! "id") (n !! "id") then n else b.

Definition insert_of (r : row) : change := Change "INSERT" r ∅.
Definition update_of (r : row) : change := Change "UPDATE" r ∅.
Definition delete_of (r : row) : change := Change "DELETE" ∅ r.

(** The list handed to the driver's map:
    [buses.filter(b => b.route_no === '15')]. The passenger and the admin map
    receive [buses] itself. *)
Definition driver_buses (buses : list row) : list row :=
  filter (λ b, strict_eq (b !! "route_no") (Some (VStr "15")) = true) buses.

(** The ids held in the store, in store order. *)
Definition ids (s : list row) : list (option value) := (λ b, b !! "id") <$> s.

(** At most one snapshot per id: no id occurs twice. *)
Definition unique_ids (s : list row) : Prop := NoDup (ids s).

(** Every bus of the list carries a string id, as the rows of [live_fleet]
    do (a UUID). *)
Definition string_ids (buses : list row) : Prop :=
  ∀ b, b ∈ buses → ∃ x, b !! "id" = Some (VStr x).

End Fleet.

Import Fleet.

(** The merge the specification describes for an accepted Update, in its
    words: fields of the payload override, the other fields of the stored
    snapshot are retained. It is compared with what [on_change] stores. *)
Definition spec_merge (stored payload : row) : row := payload ∪ stored.

(** The validation the specification describes for an inbound payload, in
    its words: the required fields are there and the position lies in
    [-90,90] x [-180,180]. The source has no such test; this one only says
    which payloads the specification calls malformed. *)
Definition spec_valid (payload : row) : bool :=
  match payload !! "id", payload !! "route_no",
        payload !! "lat", payload !! "lng" with
  | Some (VStr _), Some (VStr _), Some (VNum la), Some (VNum lo) =>
      PrimFloat.leb (-90)%float la && PrimFloat.leb la 90%float
      && PrimFloat.leb (-180)%float lo && PrimFloat.leb lo 180%float
  | _, _, _, _ => false
  end.

(** ** The driver's position broadcast *)

Module Broadcast.

(** The part of [App]'s state the tracking logic reads and writes. *)
Record app : Type := App {
  view : string;
  buses : list row;
  isTracking : bool
}.

Definition initial : app := App "roleSelection" [] false.

(** The three buttons that write [isTracking]: "Operator" on the role screen,
    "Break" / "Resume" and "End Trip" on the driver dashboard. *)
Definition choose_operator (st : app) : app :=
  App "driverDashboard" (buses st) true.

Definition toggle_tracking (st : app) : app :=
  App (view st) (buses st) (negb (isTracking st)).

Definition end_trip (st : app) : app :=
  App "roleSelection" (buses st) false.

(** [setBuses(data)] after the first fetch, and [setBuses(prev => ...)] on a
    realtime payload. *)
Definition fetched (data : list row) (st : app) : app :=
  App (view st) data (isTracking st).

Definition receive (payload : change) (st : app) : app :=
  App (view st) (on_change payload (buses st)) (isTracking st).

(** The effect installs the geolocation watch exactly when
    [isTracking && view === 'driverDashboard'], and its cleanup clears it. *)
Definition watching (st : app) : bool :=
  isTracking st && String.eqb (view st) "driverDashboard".

(** [supabase.from(table).update(set_fields).eq(eq_column, eq_value)]. *)
Record update_request : Type := UpdateRequest {
  table : string;
  set_fields : row;
  eq_column : string;
  eq_value : value
}.

(** The success callback of [watchPosition]; [now] is
    [new Date().toISOString()]. *)
Definition on_position (latitude longitude : float) (now : string)
  : update_request :=
  UpdateRequest "live_fleet"
    {[ "lat" := VNum latitude; "lng" := VNum longitude;
       "updated_at" := VStr now ]}
    "route_no" (VStr "15").

(** A position sample is turned into a request only while the watch is
    installed. *)
Definition broadcast (st : app) (latitude longitude : float) (now : string)
  : option update_request :=
  if watching st then Some (on_position latitude longitude now) else None.

(** The table's side: [UPDATE live_fleet SET ... WHERE eq_column = eq_value]
    under the schema's policy, which lets anyone update every row. The
    assigned columns take the new values, the others keep theirs. *)
Definition selects (req : update_request) (r : row) : bool :=
  strict_eq (r !! eq_column req) (Some (eq_value req)).

Definition apply_update (req : update_request) (tbl : list row) : list row :=
  (λ r, if selects req r then set_fields req ∪ r else r) <$> tbl.

(** The realtime publication then emits one UPDATE payload per row
    written. *)
Definition emitted (req : update_request) (tbl : list row) : list change :=
  (λ r, update_of (set_fields req ∪ r)) <$> filter (λ r, selects req r = true) tbl.

End Broadcast.

(** ** The marker table of [LiveMap] *)

Module LiveMap.

(** A marker: the [div] created for it (elements are told apart by a
    number), the longitude and latitude [setLngLat] last gave it, and the
    HTML of its popup. *)
Record marker : Type := Marker {
  el : nat;
  lngLat : float * float;
  popup : string
}.

(** The calls made on the map's markers, by the key of [markers.current]
    they are made for. *)
Inductive call : Type :=
| Created (id : string) (e : nat)
| Moved (id : string) (e : nat)
| Removed (id : string) (e : nat).

(** The refs of the component: whether [map.current] is set, the own
    properties of the object [markers.current], the number of elements
    created so far, and the calls made so far on markers. The removals of
    one run are recorded in the order of [map_to_list], not in the
    insertion order [Object.keys] follows. *)
Record map_view : Type := MapView {
  map_ready : bool;
  markers : gmap string marker;
  next_el : nat;
  calls : list call
}.

Definition mounted : map_view := MapView false ∅ 0 [].

(** The first effect: create the map unless it is there. *)
Definition init_map (mv : map_view) : map_view :=
  MapView true (markers mv) (next_el mv) (calls mv).

(** [!buses.find(b => b.id === id)], for a key [id] of the marker table:
    [find] gives the first bus that passes the test, an object, or
    [undefined]. *)
Definition gone (buses : list row) (id : string) : bool :=
  match List.find (λ b, strict_eq (b !! "id") (Some (VStr id))) buses with
  | Some _ => false
  | None => true
  end.

(** The body of [Object.keys(markers.current).forEach(id => ...)]. The key
    was just enumerated, so the marker is there. *)
Definition remove_if_gone (buses : list row) (mv : map_view) (id : string)
  : map_view :=
  if gone buses id then
    match markers mv !! id with
    | Some m =>
        MapView (map_ready mv) (delete id (markers mv)) (next_el mv)
                (calls mv ++ [Removed id (el m)])
    | None => mv
    end
  else mv.

(** The names a plain object inherits from [Object.prototype]:
    [markers.current[name]] is a function (or, for [__proto__], an object)
    even when no marker was ever stored under the name. *)
Definition inherited (name : string) : bool :=
  bool_decide (name ∈ ["constructor"; "hasOwnProperty"; "isPrototypeOf";
                       "propertyIsEnumerable"; "toLocaleString"; "toString";
                       "valueOf"; "__proto__"; "__defineGetter__";
                       "__defineSetter__"; "__lookupGetter__";
                       "__lookupSetter__"]).

(** Whether [new LngLat(lng, lat)] throws, which [setLngLat] runs on the
    pair it is given: it throws on NaN and on a latitude off [-90, 90];
    the longitude is not bounded. *)
Definition lnglat_throws (lng lat : float) : bool :=
  PrimFloat.is_nan lng || PrimFloat.is_nan lat
  || PrimFloat.ltb 90%float lat || PrimFloat.ltb lat (-90)%float.

Section reconcile.

(** [Number.prototype.toString], which the source relies on when a number is
    used as a property key or inside a template literal. *)
Variable number_to_string : float → string.

(** [Number(s)] for a string [s], which [setLngLat] applies to the two
    entries of the array it is given. *)
Variable string_to_number : string → float.

(** [Number(v)] on the result of a property read. *)
Definition to_number (v : option value) : float :=
  match v with
  | None => PrimFloat.nan
  | Some VNull => 0%float
  | Some (VBool true) => 1%float
  | Some (VBool false) => 0%float
  | Some (VNum x) => x
  | Some (VStr s) => string_to_number s
  end.

(** ToString, as applied to a property key ([markers.current[bus.id]]) and
    to the holes of a template literal. *)
Definition to_string (v : option value) : string :=
  match v with
  | None => "undefined"
  | Some VNull => "null"
  | Some (VBool true) => "true"
  | Some (VBool false) => "false"
  | Some (VNum x) => number_to_string x
  | Some (VStr s) => s
  end.

Definition popup_html (bus : row) : string :=
  "<b>Route " +:+ to_string (bus !! "route_no") +:+ "</b><br>"
  +:+ to_string (bus !! "last_stop").

(** The body of [buses.forEach(bus => ...)]: the refs it leaves, and
    whether it threw. [markers.current[bus.id]] is truthy when a marker is
    stored under the key and also when the key is an inherited name; in the
    second case [setLngLat] is not a function and the call throws. With a
    marker there, [setLngLat] throws on a position it rejects and the marker
    stays where it was. Without one, the [div] is made, [setLngLat] runs on
    the new marker before it is stored, and a throw leaves the table as it
    was. *)
Definition place_bus (mv : map_view) (bus : row) : map_view * bool :=
  let key := to_string (bus !! "id") in
  let lng := to_number (bus !! "lng") in
  let lat := to_number (bus !! "lat") in
  match markers mv !! key with
  | Some m =>
      if lnglat_throws lng lat then (mv, true)
      else
        (MapView (map_ready mv)
                 (<[key := Marker (el m) (lng, lat) (popup m)]> (markers mv))
                 (next_el mv)
                 (calls mv ++ [Moved key (el m)]),
         false)
  | None =>
      if inherited key then (mv, true)
      else if lnglat_throws lng lat then
        (MapView (map_ready mv) (markers mv) (S (next_el mv)) (calls mv), true)
      else
        (MapView (map_ready mv)
                 (<[key := Marker (next_el mv) (lng, lat) (popup_html bus)]>
                    (markers mv))
                 (S (next_el mv))
                 (calls mv ++ [Created key (next_el mv)]),
         false)
  end.

(** [buses.forEach]: a throw in the body ends the loop. *)
Fixpoint place_all (mv : map_view) (buses : list row) : map_view * bool :=
  match buses with
  | [] => (mv, false)
  | bus :: rest =>
      let r := place_bus mv bus in
      if r.2 then r else place_all r.1 rest
  end.

(** The second effect, run whenever [buses] changes: the refs it leaves and
    whether it threw. *)
Definition sync_run (buses : list row) (mv : map_view) : map_view * bool :=
  if map_ready mv then
    place_all (foldl (remove_if_gone buses) mv (map_to_list (markers mv)).*1)
              buses
  else (mv, false).

Definition sync_markers (buses : list row) (mv : map_view) : map_view :=
  (sync_run buses mv).1.

Definition sync_throws (buses : list row) (mv : map_view) : bool :=
  (sync_run buses mv).2.

(** The effect run once per list of buses, for the lists of successive
    renders. An effect that throws takes the component down, so no later
    list is looked at. *)
Fixpoint render_run (projections : list (list row)) (mv : map_view)
  : map_view * bool :=
  match projections with
  | [] => (mv, false)
  | buses :: rest =>
      let r := sync_run buses mv in
      if r.2 then r else render_run rest r.1
  end.

Definition render (projections : list (list row)) (mv : map_view) : map_view :=
  (render_run projections mv).1.

(** What the body of the loop leaves when nothing in it throws. *)
Definition placed (mv : map_view) (bus : row) : map_view :=
  let key := to_string (bus !! "id") in
  let lng := to_number (bus !! "lng") in
  let lat := to_number (bus !! "lat") in
  match markers mv !! key with
  | Some m =>
      MapView (map_ready mv)
              (<[key := Marker (el m) (lng, lat) (popup m)]> (markers mv))
              (next_el mv)
              (calls mv ++ [Moved key (el m)])
  | None =>
      MapView (map_ready mv)
              (<[key := Marker (next_el mv) (lng, lat) (popup_html bus)]>
                 (markers mv))
              (S (next_el mv))
              (calls mv ++ [Created key (next_el mv)])
  end.

(** Every bus of the list goes through the body without a throw, whatever
    the table holds: its key is no inherited name and [setLngLat] takes its
    position. *)
Definition placeable (buses : list row) : Prop :=
  ∀ b, b ∈ buses →
       inherited (to_string (b !! "id")) = false
       ∧ lnglat_throws (to_number (b !! "lng")) (to_number (b !! "lat")) = false.

(** The keys the buses of a list are filed under. *)
Definition keys (buses : list row) : list string :=
  (λ b, to_string (b !! "id")) <$> buses.

End reconcile.

End LiveMap.

(** ** Sample rows (the two rows of the schema's sample data, with ids) *)

Definition bus15 : row :=
  {[ "id" := VStr "b1"; "route_no" := VStr "15";
     "lat" := VNum 12.8654%float; "lng" := VNum 74.8427%float;
     "crowd_level" := VStr "Low"; "last_stop" := VStr "State Bank";
     "is_active" := VBool true;
     "updated_at" := VStr "2024-01-01T00:00:10+00:00" ]}.

Definition bus27 : row :=
  {[ "id" := VStr "b2"; "route_no" := VStr "27";
     "lat" := VNum 12.9141%float; "lng" := VNum 74.8560%float;
     "crowd_level" := VStr "Medium"; "last_stop" := VStr "Jyothi Circle";
     "is_active" := VBool true;
     "updated_at" := VStr "2024-01-01T00:00:10+00:00" ]}.

(** Variants of the route 15 row: an older and a newer report of it, a
    payload that carries only some of the columns, and one whose latitude is
    off the globe. *)
Definition bus15_older : row :=
  <[ "updated_at" := VStr "2024-01-01T00:00:05+00:00" ]>
    (<[ "last_stop" := VStr "Hampankatta" ]> bus15).

Definition bus15_newer : row :=
  <[ "updated_at" := VStr "2024-01-01T00:00:20+00:00" ]>
    (<[ "last_stop" := VStr "Lalbagh" ]> bus15).

Definition bus15_partial : row :=
  {[ "id" := VStr "b1"; "last_stop" := VStr "Lalbagh";
     "updated_at" := VStr "2024-01-01T00:00:20+00:00" ]}.

Definition bus15_off_globe : row := <[ "lat" := VNum 1000%float ]> bus15.

(** Route 15 taken out of service, and a second bus put on route 15. *)
Definition bus15_parked : row := <[ "is_active" := VBool false ]> bus15.

Definition bus15_second : row := <[ "id" := VStr "b3" ]> bus15.

(** ** The rest of the component state *)

(** The id a payload is about, as the handler reads it: [payload.old.id] in
    the DELETE branch, [payload.new.id] in the others. *)
Definition subject (p : change) : option value :=
  if String.eqb (eventType p) "DELETE" then old p !! "id" else new p !! "id".

Module Router.

Import Broadcast.

(** The buttons of the four screens. *)
Inductive button : Type :=
| PassengerCard
| OperatorCard
| CommandCenterCard
| PassengerBack
| BreakResume
| EndTrip
| AdminClose
| ReAnalyze.

(** The value of [view] under which the markup renders the button. *)
Definition shown_in (b : button) : string :=
  match b with
  | PassengerCard | OperatorCard | CommandCenterCard => "roleSelection"
  | PassengerBack => "passenger"
  | BreakResume | EndTrip => "driverDashboard"
  | AdminClose | ReAnalyze => "admin"
  end.

(** The [onClick] handlers, as far as they write [view] and [isTracking]
    ([fetchAIAdvice] writes [aiAdvice] only). *)
Definition on_click (b : button) (st : app) : app :=
  match b with
  | PassengerCard => App "passenger" (buses st) (isTracking st)
  | OperatorCard => choose_operator st
  | CommandCenterCard => App "admin" (buses st) (isTracking st)
  | PassengerBack | AdminClose => App "roleSelection" (buses st) (isTracking st)
  | BreakResume => toggle_tracking st
  | EndTrip => end_trip st
  | ReAnalyze => st
  end.

(** A button can be clicked only on the screen that shows it. *)
Definition click (b : button) (st : app) : app :=
  if String.eqb (view st) (shown_in b) then on_click b st else st.

(** [if (data) setBuses(data)]: a fetch that yields no data writes nothing. *)
Definition on_fetch (data : option (list row)) (st : app) : app :=
  match data with
  | Some rows => fetched rows st
  | None => st
  end.

(** What can happen to the mounted component: a click, a realtime payload,
    the answer of the fetch. *)
Inductive event : Type :=
| Click (b : button)
| Payload (p : change)
| Fetched (data : option (list row)).

Definition step (st : app) (ev : event) : app :=
  match ev with
  | Click b => click b st
  | Payload p => receive p st
  | Fetched data => on_fetch data st
  end.

Definition run (evs : list event) (st : app) : app := foldl step st evs.

End Router.

(** What holds of [view] and [isTracking] in every state the component can
    be in: tracking is set on the driver dashboard only, and [view] names one
    of the four screens. *)
Definition tracking_on_dashboard_only (st : Broadcast.app) : Prop :=
  (Broadcast.isTracking st = true → Broadcast.view st = "driverDashboard")
  ∧ Broadcast.view st
    ∈ ["roleSelection"; "passenger"; "driverDashboard"; "admin"].

Module MapInit.

(** The options [LiveMap] passes to [new mapboxgl.Map], apart from the
    container element. *)
Record map_options : Type := MapOptions {
  style : string;
  center : float * float;
  zoom : float;
  attributionControl : bool
}.

(** The first effect of [LiveMap], on [map.current] ([None] before the map
    is made); the [zoom] prop defaults to 13. *)
Definition create_map (dark : bool) (zoom_prop : option float)
  (current : option map_options) : option map_options :=
  match current with
  | Some m => Some m
  | None =>
      Some (MapOptions
              (if dark then "mapbox://styles/mapbox/dark-v11"
               else "mapbox://styles/mapbox/navigation-day-v1")
              (74.8560%float, 12.9141%float)
              (default 13%float zoom_prop)
              false)
  end.

End MapInit.

(** No two markers of the table sit on the same element, and every element
    in use was handed out by the counter. *)
Definition distinct_elements (mv : LiveMap.map_view) : Prop :=
  (∀ k m, LiveMap.markers mv !! k = Some m → LiveMap.el m < LiveMap.next_el mv)
  ∧ (∀ k1 k2 m1 m2,
       LiveMap.markers mv !! k1 = Some m1 →
       LiveMap.markers mv !! k2 = Some m2 →
       LiveMap.el m1 = LiveMap.el m2 → k1 = k2).

(** Where the last bus of a list that is filed under key [k] is. *)
Definition last_position (number_to_string : float → string)
  (string_to_number : string → float)
  (buses : list row) (k : string) : option (float * float) :=
  (λ b : row, (LiveMap.to_number string_to_number (b !! "lng"),
               LiveMap.to_number string_to_number (b !! "lat")))
    <$> last (filter (λ b : row,
                LiveMap.to_string number_to_string (b !! "id") = k) buses).

(** What a stored row [c] turns into as the UPDATE payloads for the rows of
    [L], each written with the fields [set], come in one after the other. *)
Definition through (set : row) (L : list row) (c : row) : row :=
  foldl (λ c r, replace_by (set ∪ r) c) c L.

(** A row that reached the store without an id. *)
Definition no_id_row : row :=
  {[ "route_no" := VStr "15"; "last_stop" := VStr "Kankanady" ]}.

(** The same row with a position, and route 15 a little further north. *)
Definition no_id_bus : row :=
  <[ "lat" := VNum 12.875%float ]> (<[ "lng" := VNum 74.75%float ]> no_id_row).

Definition bus15_moved : row := <[ "lat" := VNum 12.875%float ]> bus15.

(** * Properties *)

(** ** Strict equality against a string *)

Lemma strict_eq_str_r (a : option value) (s : string) :
  strict_eq a (Some (VStr s)) = true ↔ a = Some (VStr s).
Proof.
  split.
  - destruct a as [[| |?|t]|]; simpl; try discriminate.
    intros H. apply String.eqb_eq in H. by subst.
  - intros ->. simpl. apply String.eqb_refl.
Qed.

(** ** The handler, branch by branch *)

Section handler_branches.
Context (p : change) (s : list row).

Lemma on_change_INSERT :
  eventType p = "INSERT" → on_change p s = s ++ [new p].
Proof. unfold on_change. by intros ->. Qed.

Lemma on_change_UPDATE :
  eventType p = "UPDATE" →
  on_change p s =
  (λ b, if strict_eq (b !! "id") (new p !! "id") then new p else b) <$> s.
Proof. unfold on_change. by intros ->. Qed.

Lemma on_change_DELETE :
  eventType p = "DELETE" →
  on_change p s = filter (λ b, strict_eq (b !! "id") (old p !! "id") = false) s.
Proof. unfold on_change. by intros ->. Qed.

Lemma on_change_other :
  eventType p ≠ "INSERT" → eventType p ≠ "UPDATE" → eventType p ≠ "DELETE" →
  on_change p s = s.
Proof.
  intros Hi Hu Hd. unfold on_change.
  apply String.eqb_neq in Hi, Hu, Hd. by rewrite Hi, Hu, Hd.
Qed.

(** Every payload falls in one of the four cases. *)
Lemma eventType_cases :
  eventType p = "INSERT" ∨ eventType p = "UPDATE" ∨ eventType p = "DELETE"
  ∨ (eventType p ≠ "INSERT" ∧ eventType p ≠ "UPDATE" ∧ eventType p ≠ "DELETE").
Proof.
  destruct (decide (eventType p = "INSERT")); [by left|].
  destruct (decide (eventType p = "UPDATE")); [by right; left|].
  destruct (decide (eventType p = "DELETE")); [by right; right; left|].
  by right; right; right.
Qed.

End handler_branches.

(** Replacing by id twice with the same payload is replacing once. *)
Lemma replace_twice (n : row) (s : list row) :
  let f := λ b : row, if strict_eq (b !! "id") (n !! "id") then n else b in
  f <$> (f <$> s) = f <$> s.
Proof.
  intros f. rewrite <- list_fmap_compose. apply list_fmap_ext.
  intros _ b _. unfold f. simpl.
  destruct (strict_eq (b !! "id") (n !! "id")) eqn:E.
  - by destruct (strict_eq (n !! "id") (n !! "id")).
  - by rewrite E.
Qed.

(** Filtering twice with the same test is filtering once. *)
Lemma filter_twice {A} (P : A → Prop) `{!∀ x, Decision (P x)} (l : list A) :
  filter P (filter P l) = filter P l.
Proof.
  induction l as [|x l IH]; [done|].
  rewrite filter_cons. destruct (decide (P x)) as [Hx|Hx]; [|done].
  rewrite filter_cons, decide_True by done. by rewrite IH.
Qed.

(** C10. A payload whose [eventType] is none of INSERT, UPDATE and DELETE
    leaves the list of buses as it was: the handler takes no branch. *)
Theorem unhandled_event_keeps_store (p : change) (s : list row) :
  eventType p ≠ "INSERT" → eventType p ≠ "UPDATE" → eventType p ≠ "DELETE" →
  on_change p s = s.
Proof. apply on_change_other. Qed.

Lemma unhandled_event_keeps_store_witness :
  on_change (Change "TRUNCATE" bus27 bus15) [bus15; bus27] = [bus15; bus27].
Proof. by apply unhandled_event_keeps_store. Defined.

(** C2, as the code has it. Applying an Update, a Delete or an unhandled
    event twice in succession gives the store that applying it once gives;
    an Insert applied twice appends its payload a second time. *)
Theorem on_change_twice (p : change) (s : list row) :
  (eventType p ≠ "INSERT" → on_change p (on_change p s) = on_change p s)
  ∧ (eventType p = "INSERT" →
     on_change p (on_change p s) = on_change p s ++ [new p]).
Proof.
  split.
  - intros Hi.
    destruct (eventType_cases p) as [H|[H|[H|(_ & Hu & Hd)]]]; [done| | |].
    + rewrite !(on_change_UPDATE _ _ H). apply replace_twice.
    + rewrite !(on_change_DELETE _ _ H). apply filter_twice.
    + by rewrite !on_change_other.
  - intros Hi. by rewrite !(on_change_INSERT _ _ Hi).
Qed.

Lemma on_change_twice_witness :
  on_change (update_of bus15) (on_change (update_of bus15) [bus15; bus27])
  = on_change (update_of bus15) [bus15; bus27].
Proof. by apply (proj1 (on_change_twice (update_of bus15) [bus15; bus27])). Defined.

(** C2 fails for Insert: the same Insert applied twice to the empty store
    leaves two entries where one application leaves one. *)
Lemma insert_twice_duplicates :
  on_change (insert_of bus15) [] = [bus15]
  ∧ on_change (insert_of bus15) (on_change (insert_of bus15) []) = [bus15; bus15]
  ∧ on_change (insert_of bus15) (on_change (insert_of bus15) [])
    ≠ on_change (insert_of bus15) [].
Proof. repeat split. intros H. discriminate H. Qed.

(** ** Replacement by id *)

Section replacement.
Context (n : row).

Lemma replace_by_lookup (s : list row) (i : nat) (b : row) :
  s !! i = Some b → (replace_by n <$> s) !! i = Some (replace_by n b).
Proof. intros H. by rewrite list_lookup_fmap, H. Qed.

Lemma replace_by_absent (s : list row) :
  (∀ b, b ∈ s → strict_eq (b !! "id") (n !! "id") = false) →
  replace_by n <$> s = s.
Proof.
  intros H. rewrite <- (list_fmap_id s) at 2. apply list_fmap_ext.
  intros i b Hb. unfold replace_by.
  by rewrite (H b (list_elem_of_lookup_2 _ _ _ Hb)).
Qed.

End replacement.

Lemma on_change_UPDATE_replace (p : change) (s : list row) :
  eventType p = "UPDATE" → on_change p s = replace_by (new p) <$> s.
Proof. apply on_change_UPDATE. Qed.

(** C3, as the code has it. Once a Delete for an id has been applied, an
    Update for that id leaves the store as the Delete left it: the entity
    is not created again. *)
Theorem update_after_delete_keeps_absent (d u : change) (s : list row) :
  eventType d = "DELETE" → eventType u = "UPDATE" →
  old d !! "id" = new u !! "id" →
  on_change u (on_change d s) = on_change d s.
Proof.
  intros Hd Hu Hid. rewrite (on_change_UPDATE_replace u _ Hu).
  apply replace_by_absent. intros b Hb.
  rewrite (on_change_DELETE d s Hd) in Hb.
  apply list_elem_of_filter in Hb as [Hb _]. by rewrite <- Hid.
Qed.

Lemma update_after_delete_keeps_absent_witness :
  on_change (update_of bus15_newer) (on_change (delete_of bus15) [bus15; bus27])
  = on_change (delete_of bus15) [bus15; bus27].
Proof. by apply update_after_delete_keeps_absent. Defined.

(** C3 fails: route 15 is deleted, then an Update for it with a later
    timestamp arrives, and the store still holds route 27 alone. *)
Lemma deleted_bus_is_not_recreated :
  String.ltb "2024-01-01T00:00:10+00:00" "2024-01-01T00:00:20+00:00" = true
  ∧ bus15 !! "updated_at" = Some (VStr "2024-01-01T00:00:10+00:00")
  ∧ bus15_newer !! "updated_at" = Some (VStr "2024-01-01T00:00:20+00:00")
  ∧ on_change (delete_of bus15) [bus15; bus27] = [bus27]
  ∧ on_change (update_of bus15_newer)
      (on_change (delete_of bus15) [bus15; bus27]) = [bus27]
  ∧ bus15_newer !! "id" = Some (VStr "b1")
  ∧ ids (on_change (update_of bus15_newer)
           (on_change (delete_of bus15) [bus15; bus27]))
    = [Some (VStr "b2")].
Proof. repeat split. Qed.

(** ** Arrival order, not timestamps *)

Lemma replace_by_same_id (n1 n2 : row) (x : string) :
  n1 !! "id" = Some (VStr x) → n2 !! "id" = Some (VStr x) →
  ∀ b, replace_by n2 (replace_by n1 b) = replace_by n2 b.
Proof.
  intros H1 H2 b. unfold replace_by. rewrite H1, H2.
  destruct (strict_eq (b !! "id") (Some (VStr x))) eqn:E; [|by rewrite E].
  rewrite H1. by rewrite (proj2 (strict_eq_str_r _ x) eq_refl).
Qed.

(** C1, as the code has it. The handler compares no timestamps: an Update
    for a stored id puts its payload in the place of the stored snapshot, a
    Delete for it removes every snapshot of that id, and of two Updates for
    the same id the one applied last decides what the store holds. *)
Theorem last_applied_update_wins
  (u1 u2 d : change) (s : list row) (x : string) :
  eventType u1 = "UPDATE" → eventType u2 = "UPDATE" → eventType d = "DELETE" →
  new u1 !! "id" = Some (VStr x) → new u2 !! "id" = Some (VStr x) →
  old d !! "id" = Some (VStr x) →
  (∀ i b, s !! i = Some b → b !! "id" = Some (VStr x) →
          on_change u1 s !! i = Some (new u1))
  ∧ (Some (VStr x) ∉ ids (on_change d s))
  ∧ on_change u2 (on_change u1 s) = on_change u2 s.
Proof.
  intros Hu1 Hu2 Hd H1 H2 Ho. split; [|split].
  - intros i b Hi Hb. rewrite (on_change_UPDATE_replace u1 s Hu1).
    rewrite (replace_by_lookup _ _ _ _ Hi). unfold replace_by.
    by rewrite H1, (proj2 (strict_eq_str_r _ x) Hb).
  - rewrite (on_change_DELETE d s Hd), Ho. unfold ids.
    intros (b & Hx & Hb)%list_elem_of_fmap.
    apply list_elem_of_filter in Hb as [Hb _].
    rewrite <- Hx in Hb. simpl in Hb. by rewrite String.eqb_refl in Hb.
  - rewrite !on_change_UPDATE_replace by done.
    rewrite <- list_fmap_compose. apply list_fmap_ext. intros _ b _. simpl.
    by apply (replace_by_same_id _ _ x).
Qed.

Lemma last_applied_update_wins_witness :
  (∀ i b, [bus15; bus27] !! i = Some b → b !! "id" = Some (VStr "b1") →
          on_change (update_of bus15_newer) [bus15; bus27] !! i
          = Some bus15_newer)
  ∧ (Some (VStr "b1") ∉ ids (on_change (delete_of bus15) [bus15; bus27]))
  ∧ on_change (update_of bus15_older)
      (on_change (update_of bus15_newer) [bus15; bus27])
    = on_change (update_of bus15_older) [bus15; bus27].
Proof.
  by apply (last_applied_update_wins
              (update_of bus15_newer) (update_of bus15_older)
              (delete_of bus15) [bus15; bus27] "b1").
Defined.

(** C1 fails: an Update and a Delete that are older than the stored snapshot
    both change the store, and of two Updates applied newer first, older
    second, the older one is what the store ends up holding. *)
Lemma stale_events_are_applied :
  String.ltb "2024-01-01T00:00:05+00:00" "2024-01-01T00:00:10+00:00" = true
  ∧ String.ltb "2024-01-01T00:00:05+00:00" "2024-01-01T00:00:20+00:00" = true
  ∧ bus15 !! "updated_at" = Some (VStr "2024-01-01T00:00:10+00:00")
  ∧ bus15_older !! "updated_at" = Some (VStr "2024-01-01T00:00:05+00:00")
  ∧ bus15_newer !! "updated_at" = Some (VStr "2024-01-01T00:00:20+00:00")
  ∧ on_change (update_of bus15_older) [bus15; bus27] = [bus15_older; bus27]
  ∧ on_change (update_of bus15_older) [bus15; bus27] ≠ [bus15; bus27]
  ∧ on_change (delete_of bus15_older) [bus15; bus27] = [bus27]
  ∧ on_change (update_of bus15_older)
      (on_change (update_of bus15_newer) [bus15; bus27])
    = [bus15_older; bus27].
Proof.
  repeat split.
  intros H. apply (f_equal (λ s : list row, s !! 0 ≫= (.!! "last_stop"))) in H.
  vm_compute in H. discriminate H.
Qed.

(** ** What an Update stores *)

(** C6, as the code has it. After an Update for a stored id, the snapshot
    in that place is the payload itself: in every field it reads as the
    payload does, so a field the payload lacks is lacking afterwards. *)
Theorem update_stores_the_payload
  (u : change) (s : list row) (i : nat) (b : row) :
  eventType u = "UPDATE" → s !! i = Some b →
  strict_eq (b !! "id") (new u !! "id") = true →
  ∃ r, on_change u s !! i = Some r ∧ ∀ k : string, r !! k = new u !! k.
Proof.
  intros Hu Hi Hb. exists (new u). split; [|done].
  rewrite (on_change_UPDATE_replace u s Hu), (replace_by_lookup _ _ _ _ Hi).
  unfold replace_by. by rewrite Hb.
Qed.

Lemma update_stores_the_payload_witness :
  ∃ r, on_change (update_of bus15_partial) [bus27; bus15] !! 1 = Some r
       ∧ ∀ k : string, r !! k = new (update_of bus15_partial) !! k.
Proof.
  by apply (update_stores_the_payload (update_of bus15_partial)
              [bus27; bus15] 1 bus15).
Defined.

(** C6 fails: the payload has no [route_no]; the stored snapshot had one,
    the merge of the two has it, and the snapshot stored afterwards has
    none. *)
Lemma update_drops_missing_fields :
  bus15_partial !! "route_no" = None
  ∧ bus15 !! "route_no" = Some (VStr "15")
  ∧ spec_merge bus15 bus15_partial !! "route_no" = Some (VStr "15")
  ∧ on_change (update_of bus15_partial) [bus15] = [bus15_partial]
  ∧ on_change (update_of bus15_partial) [bus15]
    ≠ [spec_merge bus15 bus15_partial].
Proof.
  repeat split.
  intros H. apply (f_equal (λ s : list row, s !! 0 ≫= (.!! "route_no"))) in H.
  vm_compute in H. discriminate H.
Qed.

(** ** No validation *)

(** C8, as the code has it. The handler inspects nothing but [eventType]
    and the ids: whatever the payload lacks and wherever its position lies,
    an Insert appends it as received and an Update puts it, as received, in
    the place of every stored snapshot of its id. Being a total function of
    the payload and the store, the handler raises nothing. *)
Theorem payload_is_stored_unvalidated (p : change) (s : list row) :
  (eventType p = "INSERT" → on_change p s = s ++ [new p])
  ∧ (eventType p = "UPDATE" →
     ∀ i b, s !! i = Some b →
            on_change p s !! i
            = Some (if strict_eq (b !! "id") (new p !! "id") then new p else b)).
Proof.
  split.
  - apply on_change_INSERT.
  - intros Hu i b Hi.
    by rewrite (on_change_UPDATE_replace p s Hu), (replace_by_lookup _ _ _ _ Hi).
Qed.

Lemma payload_is_stored_unvalidated_witness :
  spec_valid (∅ : row) = false
  ∧ on_change (insert_of ∅) [bus15] = [bus15] ++ [new (insert_of ∅)].
Proof.
  split; [reflexivity|].
  by apply (proj1 (payload_is_stored_unvalidated (insert_of ∅) [bus15])).
Defined.

(** C8 fails: an Update whose latitude is 1000 replaces the stored snapshot,
    and an Insert whose payload has no field at all is appended. *)
Lemma invalid_payloads_change_the_store :
  PrimFloat.ltb 90%float 1000%float = true
  ∧ bus15_off_globe !! "lat" = Some (VNum 1000%float)
  ∧ spec_valid bus15_off_globe = false
  ∧ spec_valid bus15 = true
  ∧ on_change (update_of bus15_off_globe) [bus15] = [bus15_off_globe]
  ∧ on_change (update_of bus15_off_globe) [bus15] ≠ [bus15]
  ∧ spec_valid (∅ : row) = false
  ∧ on_change (insert_of ∅) [bus15] = [bus15; ∅]
  ∧ on_change (insert_of ∅) [bus15] ≠ [bus15].
Proof.
  repeat split.
  - intros H.
    apply (f_equal (λ s : list row,
            match s !! 0 ≫= (.!! "lat") with
            | Some (VNum x) => PrimFloat.ltb 90%float x
            | _ => false
            end)) in H.
    vm_compute in H. discriminate H.
  - intros H. discriminate H.
Qed.

(** ** Uniqueness of ids *)

Lemma ids_replace_by (n : row) (x : string) (s : list row) :
  n !! "id" = Some (VStr x) → ids (replace_by n <$> s) = ids s.
Proof.
  intros Hn. unfold ids. rewrite <- list_fmap_compose. apply list_fmap_ext.
  intros _ b _. simpl. unfold replace_by. rewrite Hn.
  destruct (strict_eq (b !! "id") (Some (VStr x))) eqn:E; [|done].
  apply strict_eq_str_r in E. by rewrite Hn, E.
Qed.

Lemma ids_filter_sublist (P : row → Prop) `{!∀ b, Decision (P b)}
  (s : list row) : ids (filter P s) `sublist_of` ids s.
Proof. unfold ids. apply fmap_sublist, sublist_filter. Qed.

(** C4, as the code has it. When no id occurs twice in the store, none
    does after an Update whose payload carries a string id, after a Delete,
    after an unhandled event, or after an Insert of an id the store does
    not hold. *)
Theorem unique_ids_preserved (p : change) (s : list row) :
  unique_ids s →
  (eventType p = "INSERT" → new p !! "id" ∉ ids s) →
  (eventType p = "UPDATE" → ∃ x, new p !! "id" = Some (VStr x)) →
  unique_ids (on_change p s).
Proof.
  unfold unique_ids. intros Hs Hins Hupd.
  destruct (eventType_cases p) as [H|[H|[H|(Hi & Hu & Hd)]]].
  - rewrite (on_change_INSERT p s H). unfold ids. rewrite fmap_app. simpl.
    apply NoDup_app. split; [done|]. split; [|apply NoDup_singleton].
    intros v Hv ->%list_elem_of_singleton. by apply (Hins H).
  - destruct (Hupd H) as [x Hx].
    by rewrite (on_change_UPDATE_replace p s H), (ids_replace_by _ x).
  - rewrite (on_change_DELETE p s H).
    eapply sublist_NoDup; [done|apply ids_filter_sublist].
  - by rewrite on_change_other.
Qed.

Lemma unique_ids_preserved_witness :
  unique_ids (on_change (insert_of bus27) [bus15]).
Proof.
  apply (unique_ids_preserved (insert_of bus27) [bus15]).
  - unfold unique_ids. apply NoDup_singleton.
  - intros _ Hin. apply list_elem_of_singleton in Hin. discriminate Hin.
  - intros H. discriminate H.
Defined.

(** C4 fails: the store holds route 15 once; an Insert for the same id
    arrives and the store holds that id twice. *)
Lemma insert_of_present_id_duplicates :
  unique_ids [bus15]
  ∧ ids (on_change (insert_of bus15_newer) [bus15])
    = [Some (VStr "b1"); Some (VStr "b1")]
  ∧ ¬ unique_ids (on_change (insert_of bus15_newer) [bus15]).
Proof.
  split; [apply NoDup_singleton|]. split; [reflexivity|].
  unfold unique_ids. intros H. apply NoDup_cons in H as [H _].
  apply H. by left.
Qed.

(** ** The driver's projection *)

Lemma driver_buses_ignores_field (k : string) (v : value) (s : list row) :
  k ≠ "route_no" →
  driver_buses (<[k := v]> <$> s) = <[k := v]> <$> driver_buses s.
Proof.
  intros Hk. unfold driver_buses.
  induction s as [|b s IH]; [done|].
  rewrite fmap_cons, !filter_cons, lookup_insert_ne by done.
  destruct (decide (strict_eq (b !! "route_no") (Some (VStr "15")) = true));
    [rewrite fmap_cons|]; by rewrite IH.
Qed.

(** C5, as the code has it. The list handed to the driver's map holds the
    buses whose [route_no] is the string 15 and no others, in the order the
    store has them; [is_active] is not read, so setting it to any value on
    every bus changes nothing else in the list. *)
Theorem driver_buses_selects_by_route_only (s : list row) :
  driver_buses s `sublist_of` s
  ∧ (∀ b, b ∈ driver_buses s ↔ b ∈ s ∧ b !! "route_no" = Some (VStr "15"))
  ∧ (∀ a : bool,
       driver_buses (<["is_active" := VBool a]> <$> s)
       = <["is_active" := VBool a]> <$> driver_buses s).
Proof.
  split; [apply sublist_filter|]. split.
  - intros b. unfold driver_buses. rewrite list_elem_of_filter.
    rewrite strict_eq_str_r. tauto.
  - intros a. by apply driver_buses_ignores_field.
Qed.

(** C5 fails: route 15 is out of service, and the list for the driver's
    map still holds it. *)
Lemma inactive_bus_is_projected :
  bus15_parked !! "is_active" = Some (VBool false)
  ∧ driver_buses [bus15_parked; bus27] = [bus15_parked].
Proof. by split. Qed.

(** ** The position broadcast *)

Import Broadcast.

Lemma selects_on_position (la lo : float) (now : string) (r : row) :
  selects (on_position la lo now) r = true ↔ r !! "route_no" = Some (VStr "15").
Proof. unfold selects. simpl. apply strict_eq_str_r. Qed.

Lemma apply_update_lookup (req : update_request) (tbl : list row) i r :
  tbl !! i = Some r →
  apply_update req tbl !! i
  = Some (if selects req r then set_fields req ∪ r else r).
Proof. intros H. unfold apply_update. by rewrite list_lookup_fmap, H. Qed.

Lemma toggle_tracking_twice (st : app) :
  toggle_tracking (toggle_tracking st) = st.
Proof. destruct st as [v b t]. unfold toggle_tracking. simpl. by destruct t. Qed.

(** C7, as the code has it. A position broadcast is one write to
    [live_fleet] that selects by [route_no], not by id: every row of route
    15 gets the sample's [lat] and [lng] and the current time in
    [updated_at] and keeps its other fields, and every other row is left as
    it is. Each payload that goes out is an UPDATE for a row of route 15,
    and in a viewer's store it changes no snapshot of another id. No
    request is made while tracking is off; toggling tracking changes no
    bus, and toggling it off and on again restores the state. *)
Theorem position_broadcast_writes_route_15
  (la lo : float) (now : string) (tbl : list row) (st : app) :
  (∀ i r, tbl !! i = Some r → r !! "route_no" ≠ Some (VStr "15") →
          apply_update (on_position la lo now) tbl !! i = Some r)
  ∧ (∀ i r, tbl !! i = Some r → r !! "route_no" = Some (VStr "15") →
       ∃ r', apply_update (on_position la lo now) tbl !! i = Some r'
             ∧ r' !! "lat" = Some (VNum la) ∧ r' !! "lng" = Some (VNum lo)
             ∧ r' !! "updated_at" = Some (VStr now)
             ∧ ∀ k : string, k ≠ "lat" → k ≠ "lng" → k ≠ "updated_at" →
                             r' !! k = r !! k)
  ∧ (∀ p, p ∈ emitted (on_position la lo now) tbl →
       eventType p = "UPDATE" ∧ new p !! "route_no" = Some (VStr "15")
       ∧ ∀ s i b, s !! i = Some b →
                  strict_eq (b !! "id") (new p !! "id") = false →
                  on_change p s !! i = Some b)
  ∧ (isTracking st = false → broadcast st la lo now = None)
  ∧ buses (toggle_tracking st) = buses st
  ∧ toggle_tracking (toggle_tracking st) = st.
Proof.
  split; [|split; [|split; [|split; [|split]]]].
  - intros i r Hi Hr. rewrite (apply_update_lookup _ _ _ _ Hi).
    destruct (selects _ r) eqn:E; [|done].
    by apply selects_on_position in E.
  - intros i r Hi Hr. eexists. split.
    + rewrite (apply_update_lookup _ _ _ _ Hi).
      by rewrite (proj2 (selects_on_position la lo now r) Hr).
    + simpl. repeat split.
      * apply lookup_union_Some_l. by simplify_map_eq.
      * apply lookup_union_Some_l. by simplify_map_eq.
      * apply lookup_union_Some_l. by simplify_map_eq.
      * intros k H1 H2 H3. apply lookup_union_r. by simplify_map_eq.
  - intros p (r & -> & Hr)%list_elem_of_fmap.
    apply list_elem_of_filter in Hr as [Hr _].
    apply selects_on_position in Hr.
    split; [done|]. split.
    + simpl. rewrite lookup_union_r by by simplify_map_eq. done.
    + intros s i b Hi Hb.
      rewrite on_change_UPDATE_replace, (replace_by_lookup _ _ _ _ Hi) by done.
      unfold replace_by. by rewrite Hb.
  - intros Ht. unfold broadcast, watching. by rewrite Ht.
  - done.
  - apply toggle_tracking_twice.
Qed.

Lemma position_broadcast_writes_route_15_witness :
  apply_update (on_position 12.875%float 74.75%float "2024-01-01T00:01:00.000Z")
    [bus15; bus27] !! 1 = Some bus27.
Proof.
  apply (proj1 (position_broadcast_writes_route_15
                  12.875%float 74.75%float "2024-01-01T00:01:00.000Z"
                  [bus15; bus27] initial) 1 bus27); [reflexivity|].
  intros H. discriminate H.
Defined.

(** C7 fails: two buses run on route 15; one position sample rewrites both
    and two UPDATE payloads go out, one per id. With no bus on route 15 none
    goes out. *)
Lemma one_sample_moves_every_route_15_bus :
  (λ c, new c !! "id")
    <$> emitted (on_position 12.875%float 74.75%float "2024-01-01T00:01:00.000Z")
          [bus15; bus27; bus15_second]
  = [Some (VStr "b1"); Some (VStr "b3")]
  ∧ (λ c, new c !! "lat")
    <$> emitted (on_position 12.875%float 74.75%float "2024-01-01T00:01:00.000Z")
          [bus15; bus27; bus15_second]
  = [Some (VNum 12.875%float); Some (VNum 12.875%float)]
  ∧ (λ r : row, r !! "lat")
    <$> apply_update
          (on_position 12.875%float 74.75%float "2024-01-01T00:01:00.000Z")
          [bus15; bus27; bus15_second]
  = [Some (VNum 12.875%float); Some (VNum 12.9141%float);
     Some (VNum 12.875%float)]
  ∧ emitted (on_position 12.875%float 74.75%float "2024-01-01T00:01:00.000Z")
      [bus27] = [].
Proof. by repeat split. Qed.

(** ** Marker reconciliation *)

Import LiveMap.

Lemma gone_iff (buses : list row) (k : string) :
  gone buses k = true ↔ Some (VStr k) ∉ ids buses.
Proof.
  unfold gone, ids.
  destruct (List.find _ buses) as [b|] eqn:E.
  - apply find_some in E as [Hin Hb]. apply strict_eq_str_r in Hb.
    split; [done|]. intros Hno. exfalso. apply Hno.
    apply list_elem_of_fmap. exists b. by rewrite Hb, list_elem_of_In.
  - split; [|done]. intros _ (b & Hb & Hin)%list_elem_of_fmap.
    apply list_elem_of_In in Hin.
    pose proof (find_none _ _ E b Hin) as Hf. simpl in Hf.
    by rewrite <- Hb, (proj2 (strict_eq_str_r _ k) eq_refl) in Hf.
Qed.

Lemma gone_false_iff (buses : list row) (k : string) :
  gone buses k = false ↔ Some (VStr k) ∈ ids buses.
Proof.
  rewrite <- not_true_iff_false, gone_iff.
  split; [|tauto]. intros H.
  destruct (decide (gone buses k = true)) as [Hg|Hg].
  - by apply gone_iff in Hg.
  - destruct (gone buses k) eqn:E; [done|].
    unfold gone in E. destruct (List.find _ buses) as [b|] eqn:Ef; [|done].
    apply find_some in Ef as [Hin Hb]. apply strict_eq_str_r in Hb.
    apply list_elem_of_fmap. exists b. by rewrite Hb, list_elem_of_In.
Qed.

Section removal.
Context (buses : list row).

Lemma remove_if_gone_ready mv id :
  map_ready (remove_if_gone buses mv id) = map_ready mv.
Proof.
  unfold remove_if_gone. destruct (gone buses id); [|done].
  by destruct (markers mv !! id).
Qed.

Lemma remove_if_gone_next_el mv id :
  next_el (remove_if_gone buses mv id) = next_el mv.
Proof.
  unfold remove_if_gone. destruct (gone buses id); [|done].
  by destruct (markers mv !! id).
Qed.

Lemma remove_if_gone_markers mv id k :
  markers (remove_if_gone buses mv id) !! k
  = if bool_decide (k = id) && gone buses k then None else markers mv !! k.
Proof.
  unfold remove_if_gone. case_bool_decide as Hk; simpl.
  - subst k. destruct (gone buses id); [|done].
    destruct (markers mv !! id) eqn:E; simpl; [|done].
    apply lookup_delete_eq.
  - destruct (gone buses id); [|done].
    destruct (markers mv !! id); simpl; [|done].
    by rewrite lookup_delete_ne.
Qed.

Lemma remove_if_gone_calls mv id :
  calls (remove_if_gone buses mv id)
  = calls mv ++ (if gone buses id then
                   match markers mv !! id with
                   | Some m => [Removed id (el m)]
                   | None => []
                   end
                 else []).
Proof.
  unfold remove_if_gone. destruct (gone buses id); [|by rewrite app_nil_r].
  destruct (markers mv !! id); [done|by rewrite app_nil_r].
Qed.

Lemma remove_all_ready ks mv :
  map_ready (foldl (remove_if_gone buses) mv ks) = map_ready mv.
Proof.
  revert mv. induction ks as [|id ks IH]; intros mv; [done|].
  simpl. by rewrite IH, remove_if_gone_ready.
Qed.

Lemma remove_all_next_el ks mv :
  next_el (foldl (remove_if_gone buses) mv ks) = next_el mv.
Proof.
  revert mv. induction ks as [|id ks IH]; intros mv; [done|].
  simpl. by rewrite IH, remove_if_gone_next_el.
Qed.

Lemma remove_all_markers ks mv k :
  markers (foldl (remove_if_gone buses) mv ks) !! k
  = if bool_decide (k ∈ ks) && gone buses k then None else markers mv !! k.
Proof.
  revert mv. induction ks as [|id ks IH]; intros mv.
  - cbn [foldl]. case_bool_decide as H; [by apply elem_of_nil in H|done].
  - cbn [foldl]. rewrite IH, remove_if_gone_markers.
    destruct (gone buses k); rewrite ?andb_false_r; [|done].
    rewrite !andb_true_r.
    repeat case_bool_decide; try done; exfalso;
      match goal with
      | H : _ ∈ _ :: _ |- _ => apply elem_of_cons in H; tauto
      | H : ¬ _ ∈ _ :: _ |- _ => rewrite elem_of_cons in H; tauto
      end.
Qed.

Lemma remove_all_calls_incl ks mv c :
  c ∈ calls mv → c ∈ calls (foldl (remove_if_gone buses) mv ks).
Proof.
  revert mv. induction ks as [|id ks IH]; intros mv Hc; [done|].
  simpl. apply IH. rewrite remove_if_gone_calls. apply elem_of_app. by left.
Qed.

Lemma remove_all_calls_new ks mv c :
  c ∈ calls (foldl (remove_if_gone buses) mv ks) →
  c ∈ calls mv ∨ ∃ k e, c = Removed k e ∧ gone buses k = true.
Proof.
  revert mv. induction ks as [|id ks IH]; intros mv Hc; [by left|].
  simpl in Hc. apply IH in Hc as [Hc|Hc]; [|by right].
  rewrite remove_if_gone_calls in Hc. apply elem_of_app in Hc as [Hc|Hc]; [by left|].
  destruct (gone buses id) eqn:Hg; [|by apply elem_of_nil in Hc].
  destruct (markers mv !! id) as [m|]; [|by apply elem_of_nil in Hc].
  apply list_elem_of_singleton in Hc. right. by exists id, (el m).
Qed.

Lemma remove_all_calls_removed ks mv k m :
  k ∈ ks → gone buses k = true → markers mv !! k = Some m →
  Removed k (el m) ∈ calls (foldl (remove_if_gone buses) mv ks).
Proof.
  revert mv. induction ks as [|id ks IH]; intros mv Hin Hg Hm.
  - by apply elem_of_nil in Hin.
  - simpl. destruct (decide (k = id)) as [->|Hne].
    + apply remove_all_calls_incl. rewrite remove_if_gone_calls, Hg, Hm.
      apply elem_of_app. right. by apply list_elem_of_singleton.
    + apply elem_of_cons in Hin as [?|Hin]; [done|].
      apply IH; [done|done|].
      rewrite remove_if_gone_markers.
      by case_bool_decide.
Qed.

End removal.

Section placement.
Context (nts : float → string) (stn : string → float).

Lemma placed_ready mv b : map_ready (placed nts stn mv b) = map_ready mv.
Proof. unfold placed. by destruct (markers mv !! _). Qed.

Lemma placed_next_el mv b : next_el mv ≤ next_el (placed nts stn mv b).
Proof. unfold placed. destruct (markers mv !! _); simpl; lia. Qed.

Lemma placed_markers_ne mv b k :
  k ≠ to_string nts (b !! "id") →
  markers (placed nts stn mv b) !! k = markers mv !! k.
Proof.
  intros Hk. unfold placed.
  destruct (markers mv !! to_string nts (b !! "id")); simpl;
    by rewrite lookup_insert_ne.
Qed.

Lemma placed_markers_eq mv b :
  markers (placed nts stn mv b) !! to_string nts (b !! "id")
  = Some (match markers mv !! to_string nts (b !! "id") with
          | Some m => Marker (el m) (to_number stn (b !! "lng"), to_number stn (b !! "lat")) (popup m)
          | None => Marker (next_el mv) (to_number stn (b !! "lng"), to_number stn (b !! "lat"))
                           (popup_html nts b)
          end).
Proof.
  unfold placed.
  destruct (markers mv !! to_string nts (b !! "id")); simpl;
    by rewrite lookup_insert_eq.
Qed.

Lemma placed_calls mv b :
  calls (placed nts stn mv b)
  = calls mv ++ [match markers mv !! to_string nts (b !! "id") with
                 | Some m => Moved (to_string nts (b !! "id")) (el m)
                 | None => Created (to_string nts (b !! "id")) (next_el mv)
                 end].
Proof. unfold placed. by destruct (markers mv !! _). Qed.

(** A marker that is there stays, on the same element and with the same
    popup, whatever buses are placed. *)
Lemma placed_keeps mv b k m :
  markers mv !! k = Some m →
  ∃ m', markers (placed nts stn mv b) !! k = Some m'
        ∧ el m' = el m ∧ popup m' = popup m.
Proof.
  intros Hm. destruct (decide (k = to_string nts (b !! "id"))) as [->|Hne].
  - rewrite placed_markers_eq, Hm. by eexists.
  - rewrite placed_markers_ne by done. by exists m.
Qed.

Lemma placed_all_ready bs mv :
  map_ready (foldl (placed nts stn) mv bs) = map_ready mv.
Proof.
  revert mv. induction bs as [|b bs IH]; intros mv; [done|].
  cbn [foldl]. by rewrite IH, placed_ready.
Qed.

Lemma placed_all_next_el bs mv :
  next_el mv ≤ next_el (foldl (placed nts stn) mv bs).
Proof.
  revert mv. induction bs as [|b bs IH]; intros mv; [done|].
  cbn [foldl]. etrans; [apply (placed_next_el mv b)|apply IH].
Qed.

Lemma placed_all_frame bs mv k :
  k ∉ keys nts bs → markers (foldl (placed nts stn) mv bs) !! k = markers mv !! k.
Proof.
  revert mv. induction bs as [|b bs IH]; intros mv Hk; [done|].
  cbn [foldl]. unfold keys in Hk. rewrite fmap_cons, not_elem_of_cons in Hk.
  destruct Hk as [Hne Hk]. by rewrite IH, placed_markers_ne.
Qed.

Lemma placed_all_keeps bs mv k m :
  markers mv !! k = Some m →
  ∃ m', markers (foldl (placed nts stn) mv bs) !! k = Some m'
        ∧ el m' = el m ∧ popup m' = popup m.
Proof.
  revert mv m. induction bs as [|b bs IH]; intros mv m Hm; [by exists m|].
  cbn [foldl].
  destruct (placed_keeps mv b k m Hm) as (m0 & H0 & He & Hp).
  destruct (IH _ _ H0) as (m' & H' & He' & Hp').
  exists m'. split; [done|]. split; congruence.
Qed.

Lemma placed_all_calls_incl bs mv c :
  c ∈ calls mv → c ∈ calls (foldl (placed nts stn) mv bs).
Proof.
  revert mv. induction bs as [|b bs IH]; intros mv Hc; [done|].
  cbn [foldl]. apply IH. rewrite placed_calls. apply elem_of_app. by left.
Qed.

(** The marker of a bus in the list ends where some bus of that key is. *)
Lemma placed_all_position bs mv k :
  k ∈ keys nts bs →
  ∃ m' b, markers (foldl (placed nts stn) mv bs) !! k = Some m'
          ∧ b ∈ bs ∧ to_string nts (b !! "id") = k
          ∧ lngLat m' = (to_number stn (b !! "lng"), to_number stn (b !! "lat")).
Proof.
  revert mv. induction bs as [|b bs IH]; intros mv Hk.
  - by apply elem_of_nil in Hk.
  - cbn [foldl]. destruct (decide (k ∈ keys nts bs)) as [Hin|Hout].
    + destruct (IH (placed nts stn mv b) Hin) as (m' & b' & H' & Hb' & Hk' & Hp).
      exists m', b'. repeat split; try done. by right.
    + unfold keys in Hk. rewrite fmap_cons in Hk.
      apply elem_of_cons in Hk as [->|Hk]; [|done].
      rewrite placed_all_frame by done. rewrite placed_markers_eq.
      eexists _, b. split; [done|]. split; [by left|]. split; [done|].
      by destruct (markers mv !! _).
Qed.

(** A bus whose key has no marker gets one, on an element made for it. *)
Lemma placed_all_creates bs mv k :
  markers mv !! k = None → k ∈ keys nts bs →
  ∃ m', markers (foldl (placed nts stn) mv bs) !! k = Some m'
        ∧ next_el mv ≤ el m'
        ∧ Created k (el m') ∈ calls (foldl (placed nts stn) mv bs).
Proof.
  revert mv. induction bs as [|b bs IH]; intros mv Hm Hk.
  - by apply elem_of_nil in Hk.
  - cbn [foldl]. destruct (decide (k = to_string nts (b !! "id"))) as [->|Hne].
    + pose proof (placed_markers_eq mv b) as H0. rewrite Hm in H0.
      destruct (placed_all_keeps bs _ _ _ H0) as (m' & H' & He & _).
      simpl in He. exists m'. split; [done|]. rewrite He. split; [done|].
      apply placed_all_calls_incl. rewrite placed_calls, Hm.
      apply elem_of_app. right. by apply list_elem_of_singleton.
    + unfold keys in Hk. rewrite fmap_cons in Hk.
      apply elem_of_cons in Hk as [?|Hk]; [done|].
      destruct (IH (placed nts stn mv b)) as (m' & H' & He & Hc); [|done|].
      * by rewrite placed_markers_ne.
      * exists m'. split; [done|]. split; [|done].
        pose proof (placed_next_el mv b). lia.
Qed.

(** Placing buses removes nothing, and creates only for keys that had no
    marker. *)
Lemma placed_all_calls_new bs mv c :
  c ∈ calls (foldl (placed nts stn) mv bs) →
  c ∈ calls mv
  ∨ (∃ k e, c = Moved k e)
  ∨ (∃ k e, c = Created k e ∧ markers mv !! k = None).
Proof.
  revert mv. induction bs as [|b bs IH]; intros mv Hc; [by left|].
  cbn [foldl] in Hc. apply IH in Hc as [Hc|[Hc|(k & e & -> & Hk)]].
  - rewrite placed_calls in Hc. apply elem_of_app in Hc as [Hc|Hc]; [by left|].
    apply list_elem_of_singleton in Hc. right.
    destruct (markers mv !! to_string nts (b !! "id")) eqn:E.
    + left. by eexists _, _.
    + right. by eexists _, _.
  - by right; left.
  - right. right. exists k, e. split; [done|].
    destruct (markers mv !! k) as [m|] eqn:E; [|done].
    destruct (placed_keeps mv b k m E) as (m0 & H0 & _). congruence.
Qed.

End placement.

Lemma marker_keys (m : gmap string marker) (k : string) :
  k ∈ (map_to_list m).*1 ↔ is_Some (m !! k).
Proof.
  rewrite list_elem_of_fmap. split.
  - intros ([k' v] & -> & Hin). apply elem_of_map_to_list in Hin. by exists v.
  - intros [v Hv]. exists (k, v). split; [done|]. by apply elem_of_map_to_list.
Qed.

(** When nothing throws, the loop is a fold of [placed]. *)
Lemma place_bus_placed (nts : float → string) (stn : string → float)
  (mv : map_view) (b : row) :
  inherited (to_string nts (b !! "id")) = false →
  lnglat_throws (to_number stn (b !! "lng")) (to_number stn (b !! "lat")) = false →
  place_bus nts stn mv b = (placed nts stn mv b, false).
Proof.
  intros Hi Hl. unfold place_bus, placed. rewrite Hi, Hl.
  by destruct (markers mv !! _).
Qed.

Lemma placed_all_placed (nts : float → string) (stn : string → float)
  (bs : list row) :
  ∀ mv : map_view,
    placeable nts stn bs →
    place_all nts stn mv bs = (foldl (placed nts stn) mv bs, false).
Proof.
  induction bs as [|b bs IH]; intros mv Hok; [done|].
  destruct (Hok b) as [Hi Hl]; [by left|].
  cbn [place_all foldl]. rewrite (place_bus_placed nts stn mv b Hi Hl). simpl.
  apply IH. intros b' Hb'. apply Hok. by right.
Qed.

Lemma render_cons (nts : float → string) (stn : string → float)
  (bs : list row) (ps : list (list row)) (mv : map_view) :
  sync_throws nts stn bs mv = false →
  render nts stn (bs :: ps) mv = render nts stn ps (sync_markers nts stn bs mv).
Proof.
  unfold render, sync_throws, sync_markers. cbn [render_run].
  by intros ->.
Qed.

Section reconciliation.
Context (nts : float → string) (stn : string → float).
Context (buses : list row) (mv : map_view).
Hypothesis Hready : map_ready mv = true.
Hypothesis Hstr : string_ids buses.
Hypothesis Hok : placeable nts stn buses.

Lemma keys_of_string_ids (k : string) :
  k ∈ keys nts buses ↔ Some (VStr k) ∈ ids buses.
Proof.
  unfold keys, ids. rewrite !list_elem_of_fmap. split.
  - intros (b & -> & Hb). exists b. split; [|done].
    destruct (Hstr b Hb) as [x Hx]. by rewrite Hx.
  - intros (b & Hk & Hb). exists b. split; [|done]. by rewrite <- Hk.
Qed.

Lemma sync_run_placed :
  sync_run nts stn buses mv
  = (foldl (placed nts stn)
           (foldl (remove_if_gone buses) mv (map_to_list (markers mv)).*1)
           buses,
     false).
Proof. unfold sync_run. rewrite Hready. by apply placed_all_placed. Qed.

Lemma sync_markers_unfold :
  sync_markers nts stn buses mv
  = foldl (placed nts stn)
          (foldl (remove_if_gone buses) mv (map_to_list (markers mv)).*1)
          buses.
Proof. unfold sync_markers. by rewrite sync_run_placed. Qed.

Lemma sync_throws_placeable : sync_throws nts stn buses mv = false.
Proof. unfold sync_throws. by rewrite sync_run_placed. Qed.

Lemma sync_markers_ready : map_ready (sync_markers nts stn buses mv) = true.
Proof.
  by rewrite sync_markers_unfold, placed_all_ready, remove_all_ready.
Qed.

Lemma sync_markers_created (k : string) :
  Some (VStr k) ∈ ids buses → markers mv !! k = None →
  ∃ m' b, markers (sync_markers nts stn buses mv) !! k = Some m'
          ∧ next_el mv ≤ el m'
          ∧ Created k (el m') ∈ calls (sync_markers nts stn buses mv)
          ∧ b ∈ buses ∧ b !! "id" = Some (VStr k)
          ∧ lngLat m' = (to_number stn (b !! "lng"), to_number stn (b !! "lat")).
Proof.
  intros Hin Hm. rewrite sync_markers_unfold.
  apply keys_of_string_ids in Hin.
  set (mv1 := foldl (remove_if_gone buses) mv (map_to_list (markers mv)).*1).
  assert (markers mv1 !! k = None) as H1.
  { unfold mv1. rewrite remove_all_markers, Hm. by destruct (_ && _). }
  destruct (placed_all_creates nts stn buses mv1 k H1 Hin) as (m' & H' & He & Hc).
  destruct (placed_all_position nts stn buses mv1 k Hin) as (m2 & b & H2 & Hb & Hk & Hp).
  exists m', b. split; [done|]. split.
  { unfold mv1 in He. by rewrite remove_all_next_el in He. }
  split; [done|]. split; [done|]. split; [|congruence].
  destruct (Hstr b Hb) as [x Hx]. rewrite Hx in Hk. simpl in Hk. by subst x.
Qed.

Lemma sync_markers_moved (k : string) (m : marker) :
  Some (VStr k) ∈ ids buses → markers mv !! k = Some m →
  ∃ m' b, markers (sync_markers nts stn buses mv) !! k = Some m'
          ∧ el m' = el m ∧ popup m' = popup m
          ∧ b ∈ buses ∧ b !! "id" = Some (VStr k)
          ∧ lngLat m' = (to_number stn (b !! "lng"), to_number stn (b !! "lat"))
          ∧ (∀ e, Removed k e ∈ calls (sync_markers nts stn buses mv) →
                  Removed k e ∈ calls mv)
          ∧ (∀ e, Created k e ∈ calls (sync_markers nts stn buses mv) →
                  Created k e ∈ calls mv).
Proof.
  intros Hin Hm. rewrite sync_markers_unfold.
  pose proof (proj2 (gone_false_iff buses k) Hin) as Hg.
  apply keys_of_string_ids in Hin.
  set (mv1 := foldl (remove_if_gone buses) mv (map_to_list (markers mv)).*1).
  assert (markers mv1 !! k = Some m) as H1.
  { unfold mv1. by rewrite remove_all_markers, Hg, andb_false_r. }
  destruct (placed_all_keeps nts stn buses mv1 k m H1) as (m' & H' & He & Hpop).
  destruct (placed_all_position nts stn buses mv1 k Hin) as (m2 & b & H2 & Hb & Hk & Hp).
  exists m', b. repeat (split; [done|]).
  split. { destruct (Hstr b Hb) as [x Hx]. rewrite Hx in Hk. simpl in Hk. by subst x. }
  split; [congruence|]. split.
  - intros e Hc. apply placed_all_calls_new in Hc as [Hc|[(?&?&?)|(?&?&?&?)]];
      [|done|done].
    apply remove_all_calls_new in Hc as [Hc|(k' & e' & Heq & Hg')]; [done|].
    injection Heq as <- <-. congruence.
  - intros e Hc. apply placed_all_calls_new in Hc as [Hc|[(?&?&?)|(k' & e' & Heq & Hn)]];
      [|done|].
    + apply remove_all_calls_new in Hc as [Hc|(?&?&?&?)]; done.
    + injection Heq as <- <-. congruence.
Qed.

Lemma sync_markers_removed (k : string) (m : marker) :
  Some (VStr k) ∉ ids buses → markers mv !! k = Some m →
  markers (sync_markers nts stn buses mv) !! k = None
  ∧ Removed k (el m) ∈ calls (sync_markers nts stn buses mv).
Proof.
  intros Hout Hm. rewrite sync_markers_unfold.
  pose proof (proj2 (gone_iff buses k) Hout) as Hg.
  assert (k ∈ (map_to_list (markers mv)).*1) as Hk by (apply marker_keys; eauto).
  split.
  - rewrite placed_all_frame by (by rewrite keys_of_string_ids).
    by rewrite remove_all_markers, Hg, bool_decide_eq_true_2.
  - apply placed_all_calls_incl. by apply remove_all_calls_removed.
Qed.

End reconciliation.

(** Across successive renders whose lists all hold the id, its marker is
    neither removed nor created anew. *)
Lemma render_keeps_marker (nts : float → string) (stn : string → float)
  (k : string) (ps : list (list row)) :
  ∀ (mv : map_view) (m : marker),
    map_ready mv = true →
    (∀ bs, bs ∈ ps →
           string_ids bs ∧ placeable nts stn bs ∧ Some (VStr k) ∈ ids bs) →
    markers mv !! k = Some m →
    ∃ m', markers (render nts stn ps mv) !! k = Some m'
          ∧ el m' = el m ∧ popup m' = popup m
          ∧ (∀ e, Removed k e ∈ calls (render nts stn ps mv) →
                  Removed k e ∈ calls mv)
          ∧ (∀ e, Created k e ∈ calls (render nts stn ps mv) →
                  Created k e ∈ calls mv).
Proof.
  induction ps as [|bs ps IH]; intros mv m Hready Hps Hm.
  - exists m. by repeat split.
  - destruct (Hps bs) as (Hstr & Hok & Hin); [by left|].
    rewrite render_cons by (by apply sync_throws_placeable).
    destruct (sync_markers_moved nts stn bs mv Hready Hstr Hok k m Hin Hm)
      as (m1 & b & H1 & He1 & Hp1 & _ & _ & _ & Hr1 & Hc1).
    destruct (IH (sync_markers nts stn bs mv) m1) as (m' & H' & He & Hp & Hr & Hc).
    + by apply sync_markers_ready.
    + intros bs' Hbs'. apply Hps. by right.
    + done.
    + exists m'. split; [done|]. split; [congruence|]. split; [congruence|].
      split; intros e He'; [apply Hr1, Hr, He'|apply Hc1, Hc, He'].
Qed.


Lemma string_ids_sample : string_ids [bus15; bus27].
Proof.
  intros b Hb. apply elem_of_cons in Hb as [->|Hb]; [by exists "b1"|].
  apply list_elem_of_singleton in Hb as ->. by exists "b2".
Defined.

Lemma placeable_sample :
  placeable (λ _, "NaN") (λ _, PrimFloat.nan) [bus15; bus27].
Proof.
  intros b Hb. apply elem_of_cons in Hb as [->|Hb]; [by split|].
  apply list_elem_of_singleton in Hb as ->. by split.
Defined.



(** Three renders in a row: both buses, both again with route 15 moved on,
    then route 27 alone. Each marker is created once, route 15's is moved
    and then removed, route 27's is moved twice on the element it got. *)
Example three_renders :
  calls (render (λ _, "NaN") (λ _, PrimFloat.nan)
           [[bus15; bus27]; [bus15_newer; bus27]; [bus27]]
           (init_map mounted))
  = [Created "b1" 0; Created "b2" 1; Moved "b1" 0; Moved "b2" 1;
     Removed "b1" 0; Moved "b2" 1].
Proof. vm_compute. reflexivity. Qed.

(** Runs that throw. With a marker for route 15 in place, a list that puts
    route 15 at latitude 1000 makes [setLngLat] throw: the marker stays on
    its element, where it was, and no call is recorded. A bus whose id is
    the string constructor finds the inherited function under its key and
    throws before anything is made. A bus without a position makes the
    [div], throws, and leaves the table empty. *)
Example runs_that_throw :
  sync_run (λ _, "NaN") (λ _, PrimFloat.nan) [bus15_off_globe]
    (sync_markers (λ _, "NaN") (λ _, PrimFloat.nan) [bus15] (init_map mounted))
  = (sync_markers (λ _, "NaN") (λ _, PrimFloat.nan) [bus15] (init_map mounted),
     true)
  ∧ sync_run (λ _, "NaN") (λ _, PrimFloat.nan)
      [<[ "id" := VStr "constructor" ]> bus15] (init_map mounted)
    = (init_map mounted, true)
  ∧ sync_run (λ _, "NaN") (λ _, PrimFloat.nan) [bus15_partial]
      (init_map mounted)
    = (MapView true ∅ 1 [], true).
Proof. by repeat split. Qed.

(** * Further properties of the handler *)

Lemma replace_by_id (n b : row) (x : string) :
  n !! "id" = Some (VStr x) → replace_by n b !! "id" = b !! "id".
Proof.
  intros Hn. unfold replace_by. rewrite Hn.
  destruct (strict_eq (b !! "id") (Some (VStr x))) eqn:E; [|done].
  apply strict_eq_str_r in E. by rewrite Hn, E.
Qed.

Lemma strict_eq_str_ne (x y : string) :
  x ≠ y → strict_eq (Some (VStr x)) (Some (VStr y)) = false.
Proof. intros H. simpl. by apply String.eqb_neq. Qed.

Lemma filter_all {A} (P : A → Prop) `{!∀ x, Decision (P x)} (l : list A) :
  (∀ x, x ∈ l → P x) → filter P l = l.
Proof.
  induction l as [|x l IH]; intros Hall; [done|].
  rewrite filter_cons, decide_True by (apply Hall; by left).
  rewrite IH; [done|]. intros y Hy. apply Hall. by right.
Qed.

Lemma filter_comm {A} (P Q : A → Prop)
  `{!∀ x, Decision (P x)} `{!∀ x, Decision (Q x)} (l : list A) :
  filter P (filter Q l) = filter Q (filter P l).
Proof.
  induction l as [|x l IH]; [done|].
  rewrite !filter_cons.
  destruct (decide (Q x)), (decide (P x));
    rewrite ?filter_cons, ?decide_True, ?decide_False by done; by rewrite IH.
Qed.

(** Deleting by id after replacing by id is replacing after deleting. *)
Lemma filter_replace_by (n : row) (x : string) (v : option value) (s : list row) :
  n !! "id" = Some (VStr x) →
  filter (λ b : row, strict_eq (b !! "id") v = false) (replace_by n <$> s)
  = replace_by n <$> filter (λ b : row, strict_eq (b !! "id") v = false) s.
Proof.
  intros Hn. induction s as [|b s IH]; [done|].
  rewrite fmap_cons, !filter_cons, (replace_by_id n b x Hn).
  destruct (decide (strict_eq (b !! "id") v = false)); [rewrite fmap_cons|];
    by rewrite IH.
Qed.

(** X1. An Update changes neither the number of buses nor, when its payload
    carries a string id, the ids the store holds or their order. *)
Theorem update_keeps_length_and_ids (u : change) (s : list row) (x : string) :
  eventType u = "UPDATE" → new u !! "id" = Some (VStr x) →
  length (on_change u s) = length s ∧ ids (on_change u s) = ids s.
Proof.
  intros Hu Hx. rewrite (on_change_UPDATE_replace u s Hu). split.
  - apply length_fmap.
  - by apply (ids_replace_by _ x).
Qed.

Lemma update_keeps_length_and_ids_witness :
  length (on_change (update_of bus15_newer) [bus15; bus27]) = length [bus15; bus27]
  ∧ ids (on_change (update_of bus15_newer) [bus15; bus27]) = ids [bus15; bus27].
Proof. by apply (update_keeps_length_and_ids _ _ "b1"). Defined.

(** X2. An Insert of an id the store does not hold, followed by a Delete of
    that id, gives back the store. *)
Theorem insert_then_delete_restores
  (i d : change) (s : list row) (x : string) :
  eventType i = "INSERT" → eventType d = "DELETE" →
  new i !! "id" = Some (VStr x) → old d !! "id" = Some (VStr x) →
  Some (VStr x) ∉ ids s →
  on_change d (on_change i s) = s.
Proof.
  intros Hi Hd Hn Ho Hs.
  rewrite (on_change_INSERT i s Hi), (on_change_DELETE d _ Hd), Ho, filter_app.
  rewrite filter_all.
  - rewrite filter_cons, decide_False; [by rewrite app_nil_r|].
    rewrite Hn. simpl. by rewrite String.eqb_refl.
  - intros b Hb. destruct (strict_eq (b !! "id") (Some (VStr x))) eqn:E; [|done].
    apply strict_eq_str_r in E. exfalso. apply Hs. unfold ids.
    rewrite <- E. by apply list_elem_of_fmap_2.
Qed.

Lemma insert_then_delete_restores_witness :
  on_change (delete_of bus15) (on_change (insert_of bus15) [bus27]) = [bus27].
Proof.
  apply (insert_then_delete_restores _ _ _ "b1"); try reflexivity.
  intros H. apply list_elem_of_singleton in H. discriminate H.
Defined.

(** ** Events about different buses *)

Lemma replace_by_comm (n1 n2 : row) (x y : string) (b : row) :
  n1 !! "id" = Some (VStr x) → n2 !! "id" = Some (VStr y) → x ≠ y →
  replace_by n1 (replace_by n2 b) = replace_by n2 (replace_by n1 b).
Proof.
  intros H1 H2 Hxy. unfold replace_by. rewrite H1, H2.
  destruct (strict_eq (b !! "id") (Some (VStr x))) eqn:Ex,
           (strict_eq (b !! "id") (Some (VStr y))) eqn:Ey;
    rewrite ?H1, ?H2, ?Ex, ?Ey, ?(strict_eq_str_ne x y), ?(strict_eq_str_ne y x)
      by done; try done.
  apply strict_eq_str_r in Ex, Ey. congruence.
Qed.

Section commuting_pairs.
Context (p q : change) (s : list row) (x y : string).
Hypothesis Hp : subject p = Some (VStr x).
Hypothesis Hq : subject q = Some (VStr y).
Hypothesis Hxy : x ≠ y.

Lemma comm_update_update :
  eventType p = "UPDATE" → eventType q = "UPDATE" →
  on_change p (on_change q s) = on_change q (on_change p s).
Proof.
  intros Ep Eq. unfold subject in Hp, Hq. rewrite Ep in Hp. rewrite Eq in Hq.
  rewrite !on_change_UPDATE_replace by done.
  rewrite <- !list_fmap_compose. apply list_fmap_ext. intros _ b _. simpl.
  by apply (replace_by_comm _ _ x y).
Qed.

Lemma comm_delete_update :
  eventType p = "DELETE" → eventType q = "UPDATE" →
  on_change p (on_change q s) = on_change q (on_change p s).
Proof.
  intros Ep Eq. unfold subject in Hq. rewrite Eq in Hq.
  rewrite (on_change_UPDATE_replace q s Eq), (on_change_DELETE p _ Ep).
  rewrite (on_change_UPDATE_replace q _ Eq), (on_change_DELETE p s Ep).
  by apply (filter_replace_by _ y).
Qed.

Lemma comm_delete_delete :
  eventType p = "DELETE" → eventType q = "DELETE" →
  on_change p (on_change q s) = on_change q (on_change p s).
Proof.
  intros Ep Eq. rewrite !on_change_DELETE by done. apply filter_comm.
Qed.

Lemma comm_update_insert :
  eventType p = "UPDATE" → eventType q = "INSERT" →
  on_change p (on_change q s) = on_change q (on_change p s).
Proof.
  intros Ep Eq. unfold subject in Hp, Hq. rewrite Ep in Hp. rewrite Eq in Hq.
  simpl in Hp, Hq.
  rewrite (on_change_INSERT q s Eq), (on_change_UPDATE_replace p _ Ep).
  rewrite (on_change_INSERT q _ Eq), (on_change_UPDATE_replace p s Ep).
  rewrite fmap_app. f_equal. simpl. unfold replace_by.
  by rewrite Hp, Hq, (strict_eq_str_ne y x).
Qed.

Lemma comm_delete_insert :
  eventType p = "DELETE" → eventType q = "INSERT" →
  on_change p (on_change q s) = on_change q (on_change p s).
Proof.
  intros Ep Eq. unfold subject in Hp, Hq. rewrite Ep in Hp. rewrite Eq in Hq.
  simpl in Hp, Hq.
  rewrite (on_change_INSERT q s Eq), (on_change_DELETE p _ Ep).
  rewrite (on_change_INSERT q _ Eq), (on_change_DELETE p s Ep).
  rewrite filter_app. f_equal.
  rewrite filter_cons, decide_True; [done|].
  by rewrite Hp, Hq, (strict_eq_str_ne y x).
Qed.

End commuting_pairs.

(** X3. Two events about different buses (different string ids), not both
    Inserts, can be applied in either order: the store comes out the
    same. *)
Theorem events_on_distinct_ids_commute
  (p q : change) (s : list row) (x y : string) :
  subject p = Some (VStr x) → subject q = Some (VStr y) → x ≠ y →
  ¬ (eventType p = "INSERT" ∧ eventType q = "INSERT") →
  on_change p (on_change q s) = on_change q (on_change p s).
Proof.
  intros Hp Hq Hxy Hii.
  assert (y ≠ x) as Hyx by congruence.
  destruct (eventType_cases p) as [Ep|[Ep|[Ep|(Ep1 & Ep2 & Ep3)]]];
  destruct (eventType_cases q) as [Eq|[Eq|[Eq|(Eq1 & Eq2 & Eq3)]]];
    try (exfalso; by apply Hii);
    try (by rewrite !(on_change_other p) by done);
    try (by rewrite !(on_change_other q) by done).
  - symmetry. by apply (comm_update_insert q p s y x).
  - symmetry. by apply (comm_delete_insert q p s y x).
  - by apply (comm_update_insert p q s x y).
  - by apply (comm_update_update p q s x y).
  - symmetry. by apply (comm_delete_update q p s x).
  - by apply (comm_delete_insert p q s x y).
  - by apply (comm_delete_update p q s y).
  - by apply comm_delete_delete.
Qed.

Lemma events_on_distinct_ids_commute_witness :
  on_change (update_of bus15_newer) (on_change (delete_of bus27) [bus15; bus27])
  = on_change (delete_of bus27) (on_change (update_of bus15_newer) [bus15; bus27]).
Proof.
  apply (events_on_distinct_ids_commute _ _ _ "b1" "b2"); try reflexivity.
  - intros H. discriminate H.
  - intros [_ H]. discriminate H.
Defined.

(** X4. A Delete wipes out an Update of the same id that came before it:
    the store is the one the Delete alone would have left. *)
Theorem delete_absorbs_update (u d : change) (s : list row) (x : string) :
  eventType u = "UPDATE" → eventType d = "DELETE" →
  new u !! "id" = Some (VStr x) → old d !! "id" = Some (VStr x) →
  on_change d (on_change u s) = on_change d s.
Proof.
  intros Hu Hd Hn Ho.
  rewrite (on_change_UPDATE_replace u s Hu), (on_change_DELETE d _ Hd).
  rewrite (filter_replace_by _ x) by done.
  rewrite (on_change_DELETE d s Hd). apply replace_by_absent.
  intros b Hb. apply list_elem_of_filter in Hb as [Hb _]. by rewrite Hn, <- Ho.
Qed.

Lemma delete_absorbs_update_witness :
  on_change (delete_of bus15) (on_change (update_of bus15_newer) [bus15; bus27])
  = on_change (delete_of bus15) [bus15; bus27].
Proof. by apply (delete_absorbs_update _ _ _ "b1"). Defined.

(** X5. On a store whose buses all carry a string id, an Update or a Delete
    whose record has no id changes nothing. *)
Theorem event_without_id_changes_nothing (p : change) (s : list row) :
  eventType p ≠ "INSERT" → subject p = None → string_ids s →
  on_change p s = s.
Proof.
  intros Hi Hp Hs. unfold subject in Hp.
  assert (∀ b, b ∈ s → strict_eq (b !! "id") None = false) as Hno.
  { intros b Hb. destruct (Hs b Hb) as [x ->]. done. }
  destruct (eventType_cases p) as [E|[E|[E|(E1 & E2 & E3)]]]; [done| | |].
  - rewrite E in Hp. simpl in Hp.
    rewrite (on_change_UPDATE_replace p s E). apply replace_by_absent.
    by rewrite Hp.
  - rewrite E in Hp. simpl in Hp.
    rewrite (on_change_DELETE p s E), Hp. by apply filter_all.
  - by apply on_change_other.
Qed.

Lemma event_without_id_changes_nothing_witness :
  on_change (update_of no_id_row) [bus15; bus27] = [bus15; bus27].
Proof.
  apply event_without_id_changes_nothing.
  - intros H. discriminate H.
  - reflexivity.
  - intros b Hb. apply elem_of_cons in Hb as [->|Hb]; [by exists "b1"|].
    apply list_elem_of_singleton in Hb as ->. by exists "b2".
Defined.

Lemma filter_absent_id (x : string) (s : list row) :
  Some (VStr x) ∉ ids s →
  filter (λ b : row, strict_eq (b !! "id") (Some (VStr x)) = false) s = s.
Proof.
  intros Hs. apply filter_all. intros b Hb.
  destruct (strict_eq (b !! "id") (Some (VStr x))) eqn:E; [|done].
  apply strict_eq_str_r in E. exfalso. apply Hs. unfold ids.
  rewrite <- E. by apply list_elem_of_fmap_2.
Qed.

Lemma filter_present_id (x : string) (s : list row) :
  unique_ids s → Some (VStr x) ∈ ids s →
  S (length (filter (λ b : row, strict_eq (b !! "id") (Some (VStr x)) = false) s))
  = length s.
Proof.
  unfold unique_ids, ids. induction s as [|b s IH]; intros Hu Hin.
  - by apply elem_of_nil in Hin.
  - rewrite fmap_cons in Hu, Hin. apply NoDup_cons in Hu as [Hb Hu].
    rewrite filter_cons.
    destruct (decide (strict_eq (b !! "id") (Some (VStr x)) = false)) as [E|E].
    + apply elem_of_cons in Hin as [Hin|Hin].
      * rewrite <- Hin in E. simpl in E. by rewrite String.eqb_refl in E.
      * simpl. by rewrite IH.
    + apply not_false_is_true, strict_eq_str_r in E.
      rewrite E in Hb. by rewrite (filter_absent_id x s Hb).
Qed.

(** X6. On a store that holds no id twice, a Delete of an id the store
    holds takes away exactly one bus; a Delete of an id it does not hold
    changes nothing. *)
Theorem delete_removes_exactly_one (d : change) (s : list row) (x : string) :
  eventType d = "DELETE" → old d !! "id" = Some (VStr x) → unique_ids s →
  (Some (VStr x) ∈ ids s → S (length (on_change d s)) = length s)
  ∧ (Some (VStr x) ∉ ids s → on_change d s = s).
Proof.
  intros Hd Ho Hu. rewrite (on_change_DELETE d s Hd), Ho. split.
  - by apply filter_present_id.
  - apply filter_absent_id.
Qed.

Lemma unique_ids_sample : unique_ids [bus15; bus27].
Proof.
  unfold unique_ids, ids. simpl. apply NoDup_cons. split.
  - intros H. apply list_elem_of_singleton in H. discriminate H.
  - apply NoDup_singleton.
Qed.

Lemma delete_removes_exactly_one_witness :
  S (length (on_change (delete_of bus15) [bus15; bus27])) = length [bus15; bus27].
Proof.
  apply (proj1 (delete_removes_exactly_one (delete_of bus15) [bus15; bus27] "b1"
                  eq_refl eq_refl unique_ids_sample)).
  by left.
Defined.

(** X7. The driver's projection of the store after a Delete is the Delete
    applied to the driver's projection: the map of route 15 loses the bus
    exactly when the store does. *)
Theorem driver_buses_after_delete (d : change) (s : list row) :
  eventType d = "DELETE" →
  driver_buses (on_change d s) = on_change d (driver_buses s).
Proof.
  intros Hd. rewrite !(on_change_DELETE d _ Hd). apply filter_comm.
Qed.

Lemma driver_buses_after_delete_witness :
  driver_buses (on_change (delete_of bus15) [bus15; bus27])
  = on_change (delete_of bus15) (driver_buses [bus15; bus27]).
Proof. by apply driver_buses_after_delete. Defined.

(** * Further properties of the position broadcast *)

Section position_request.
Context (la lo : float) (now : string).

Lemma position_fields_other (r : row) (k : string) :
  k ≠ "lat" → k ≠ "lng" → k ≠ "updated_at" →
  (set_fields (on_position la lo now) ∪ r) !! k = r !! k.
Proof. intros H1 H2 H3. apply lookup_union_r. simpl. by simplify_map_eq. Qed.

Lemma position_row_other (r : row) (k : string) :
  k ≠ "lat" → k ≠ "lng" → k ≠ "updated_at" →
  (if selects (on_position la lo now) r
   then set_fields (on_position la lo now) ∪ r else r) !! k = r !! k.
Proof.
  intros H1 H2 H3. destruct (selects _ r); [|done].
  by apply position_fields_other.
Qed.

(** X8. A position broadcast changes no id and no route in the table: the
    ids stay as they were, in order, and the driver's projection of the
    written table is the written driver's projection. *)
Theorem position_update_keeps_ids_and_routes (tbl : list row) :
  ids (apply_update (on_position la lo now) tbl) = ids tbl
  ∧ driver_buses (apply_update (on_position la lo now) tbl)
    = apply_update (on_position la lo now) (driver_buses tbl).
Proof.
  split.
  - unfold ids, apply_update. rewrite <- list_fmap_compose.
    apply list_fmap_ext. intros _ r _. simpl. by apply position_row_other.
  - unfold driver_buses, apply_update.
    induction tbl as [|r tbl IH]; [done|].
    rewrite fmap_cons, !filter_cons, position_row_other by done.
    destruct (decide (strict_eq (r !! "route_no") (Some (VStr "15")) = true));
      [rewrite fmap_cons|]; by rewrite IH.
Qed.

End position_request.

(** ** A viewer that mirrors the table *)

Lemma same_id_same_row (tbl : list row) (a b : row) :
  unique_ids tbl → a ∈ tbl → b ∈ tbl → a !! "id" = b !! "id" → a = b.
Proof.
  unfold unique_ids, ids. induction tbl as [|r tbl IH]; intros Hu Ha Hb Hab.
  - by apply elem_of_nil in Ha.
  - rewrite fmap_cons in Hu. apply NoDup_cons in Hu as [Hr Hu].
    apply elem_of_cons in Ha as [->|Ha]; apply elem_of_cons in Hb as [->|Hb].
    + done.
    + exfalso. apply Hr. rewrite Hab. by apply list_elem_of_fmap_2.
    + exfalso. apply Hr. rewrite <- Hab. by apply list_elem_of_fmap_2.
    + by apply IH.
Qed.

Section mirror.
Context (set : row) (tbl : list row).
Hypothesis Hset : set !! "id" = None.
Hypothesis Hu : unique_ids tbl.
Hypothesis Hs : string_ids tbl.

Lemma written_id (r : row) : (set ∪ r) !! "id" = r !! "id".
Proof. by apply lookup_union_r. Qed.

Lemma replace_by_written (r b c : row) :
  r ∈ tbl → b ∈ tbl → c !! "id" = b !! "id" →
  replace_by (set ∪ r) c = set ∪ b ∧ r = b
  ∨ replace_by (set ∪ r) c = c ∧ r ≠ b.
Proof.
  intros Hr Hb Hc. unfold replace_by. rewrite written_id, Hc.
  destruct (Hs r Hr) as [xr Hxr]. destruct (Hs b Hb) as [xb Hxb].
  rewrite Hxr, Hxb. destruct (decide (xb = xr)) as [->|Hne].
  - left. rewrite (proj2 (strict_eq_str_r _ xr) eq_refl).
    assert (r = b) as -> by (apply (same_id_same_row tbl); congruence).
    done.
  - right. rewrite (strict_eq_str_ne xb xr Hne). split; [done|].
    intros ->. congruence.
Qed.

Lemma through_written (L : list row) (b : row) :
  (∀ r, r ∈ L → r ∈ tbl) → b ∈ tbl → through set L (set ∪ b) = set ∪ b.
Proof.
  unfold through. induction L as [|r L IH]; intros HL Hb; [done|].
  cbn [foldl].
  destruct (replace_by_written r b (set ∪ b)) as [[-> _]|[-> _]];
    try (apply IH; [intros r' Hr'; apply HL; by right|done]).
  - apply HL. by left.
  - done.
  - apply written_id.
Qed.

Lemma through_spec (L : list row) (b c : row) :
  (∀ r, r ∈ L → r ∈ tbl) → b ∈ tbl → c !! "id" = b !! "id" →
  (b ∈ L → through set L c = set ∪ b) ∧ (b ∉ L → through set L c = c).
Proof.
  revert c. induction L as [|r L IH]; intros c HL Hb Hc.
  - split; [by intros ?%elem_of_nil|done].
  - assert (∀ r', r' ∈ L → r' ∈ tbl) as HL' by (intros r' Hr'; apply HL; by right).
    unfold through. cbn [foldl]. fold (through set L (replace_by (set ∪ r) c)).
    destruct (replace_by_written r b c) as [[-> ->]|[-> Hne]];
      [apply HL; by left|done|done| |].
    + split; [intros _; by apply through_written|].
      intros Hno. exfalso. apply Hno. by left.
    + destruct (IH c HL' Hb Hc) as [IH1 IH2]. split.
      * intros [?|Hin]%elem_of_cons; [congruence|by apply IH1].
      * intros Hno. apply IH2. intros Hin. apply Hno. by right.
Qed.

Lemma payloads_through (L s : list row) :
  foldl (λ s p, on_change p s) s ((λ r, update_of (set ∪ r)) <$> L)
  = through set L <$> s.
Proof.
  revert s. induction L as [|r L IH]; intros s.
  - simpl. by rewrite list_fmap_id.
  - rewrite fmap_cons. cbn [foldl]. rewrite IH.
    rewrite on_change_UPDATE_replace by done. simpl.
    by rewrite <- list_fmap_compose.
Qed.

End mirror.

(** X9. A viewer whose list equals the table, with string ids none of which
    occurs twice, has the written table again once it has received the
    payloads that a position broadcast sends out. *)
Theorem viewer_follows_the_table
  (la lo : float) (now : string) (tbl : list row) :
  unique_ids tbl → string_ids tbl →
  foldl (λ s p, on_change p s) tbl (emitted (on_position la lo now) tbl)
  = apply_update (on_position la lo now) tbl.
Proof.
  intros Hu Hs. unfold emitted, apply_update.
  rewrite payloads_through. apply list_fmap_ext. intros i b Hi.
  apply list_elem_of_lookup_2 in Hi.
  destruct (through_spec (set_fields (on_position la lo now)) tbl
              eq_refl Hu Hs
              (filter (λ r, selects (on_position la lo now) r = true) tbl) b b)
    as [H1 H2]; [|done|done|].
  - by intros r [_ Hr]%list_elem_of_filter.
  - destruct (selects (on_position la lo now) b) eqn:E.
    + apply H1. by apply list_elem_of_filter.
    + apply H2. intros [Hsel _]%list_elem_of_filter. congruence.
Qed.

Lemma viewer_follows_the_table_witness :
  foldl (λ s p, on_change p s) [bus15; bus27]
    (emitted (on_position 12.875%float 74.75%float "2024-01-01T00:01:00.000Z")
       [bus15; bus27])
  = apply_update (on_position 12.875%float 74.75%float "2024-01-01T00:01:00.000Z")
      [bus15; bus27].
Proof.
  apply viewer_follows_the_table.
  - apply unique_ids_sample.
  - apply string_ids_sample.
Defined.

(** * The screens and the tracking flag *)

Import Router.

Lemma click_keeps_invariant (b : button) (st : app) :
  tracking_on_dashboard_only st → tracking_on_dashboard_only (click b st).
Proof.
  intros [Ht Hv]. unfold click.
  destruct (String.eqb (view st) (shown_in b)) eqn:E; [|done].
  apply String.eqb_eq in E.
  assert (shown_in b ≠ "driverDashboard" → isTracking st = false) as Hoff.
  { intros Hb. destruct (isTracking st); [|done]. rewrite Ht in E; congruence. }
  destruct b; simpl in *; unfold tracking_on_dashboard_only; simpl;
    rewrite ?Hoff by done; (split; [try done|]);
    rewrite ?E; repeat (rewrite elem_of_cons); auto.
Qed.

Lemma step_keeps_invariant (st : app) (ev : event) :
  tracking_on_dashboard_only st → tracking_on_dashboard_only (step st ev).
Proof.
  destruct ev as [b|p|[rows|]]; simpl; try done.
  apply click_keeps_invariant.
Qed.

Lemma run_keeps_invariant (evs : list event) (st : app) :
  tracking_on_dashboard_only st → tracking_on_dashboard_only (run evs st).
Proof.
  revert st. induction evs as [|ev evs IH]; intros st Hst; [done|].
  unfold run. cbn [foldl]. apply IH. by apply step_keeps_invariant.
Qed.

(** X10. Whatever is clicked and whatever arrives from the network, starting
    from the role screen with tracking off: the geolocation watch is
    installed exactly when [isTracking] is set, because [isTracking] is never
    left set on a screen other than the driver dashboard; and [view] is
    always one of the four screens. *)
Theorem watch_follows_tracking_flag (evs : list event) :
  watching (run evs initial) = isTracking (run evs initial)
  ∧ view (run evs initial)
    ∈ ["roleSelection"; "passenger"; "driverDashboard"; "admin"].
Proof.
  destruct (run_keeps_invariant evs initial) as [Ht Hv].
  { split; [done|]. by left. }
  split; [|done]. unfold watching.
  destruct (isTracking (run evs initial)); [|done].
  by rewrite Ht.
Qed.

(** * Further properties of the marker table *)

Section table_after_sync.
Context (nts : float → string) (stn : string → float).
Context (buses : list row) (mv : map_view).
Hypothesis Hready : map_ready mv = true.
Hypothesis Hstr : string_ids buses.
Hypothesis Hok : placeable nts stn buses.

Lemma sync_markers_absent (k : string) :
  Some (VStr k) ∉ ids buses →
  markers (sync_markers nts stn buses mv) !! k = None.
Proof.
  intros Hout. destruct (markers mv !! k) as [m|] eqn:Hm.
  - by apply (sync_markers_removed nts stn buses mv Hready Hstr Hok k m).
  - rewrite sync_markers_unfold by done.
    rewrite placed_all_frame by (by rewrite keys_of_string_ids).
    rewrite remove_all_markers, Hm. by destruct (_ && _).
Qed.

Lemma sync_markers_present (k : string) :
  Some (VStr k) ∈ ids buses →
  is_Some (markers (sync_markers nts stn buses mv) !! k).
Proof.
  intros Hin. destruct (markers mv !! k) as [m|] eqn:Hm.
  - destruct (sync_markers_moved nts stn buses mv Hready Hstr Hok k m Hin Hm)
      as (m' & _ & H' & _). by exists m'.
  - destruct (sync_markers_created nts stn buses mv Hready Hstr Hok k Hin Hm)
      as (m' & _ & H' & _). by exists m'.
Qed.

End table_after_sync.

Lemma placeable_nil (nts : float → string) (stn : string → float) :
  placeable nts stn [].
Proof. by intros b ?%elem_of_nil. Qed.

(** X11. Once the map is there, after a run of the effect on buses with
    string ids that all go through the loop without a throw (no key is an
    inherited name, every position is one [setLngLat] takes), the marker
    table has a marker for an id exactly when the list holds a bus of that
    id. *)
Theorem markers_mirror_bus_ids
  (nts : float → string) (stn : string → float)
  (buses : list row) (mv : map_view) (k : string) :
  map_ready mv = true → string_ids buses → placeable nts stn buses →
  is_Some (markers (sync_markers nts stn buses mv) !! k)
  ↔ Some (VStr k) ∈ ids buses.
Proof.
  intros Hready Hstr Hok. split.
  - intros Hsome. destruct (gone buses k) eqn:Hg.
    + apply gone_iff in Hg.
      rewrite (sync_markers_absent nts stn buses mv Hready Hstr Hok k Hg)
        in Hsome.
      by destruct Hsome.
    + by apply gone_false_iff.
  - by apply sync_markers_present.
Qed.

Lemma markers_mirror_bus_ids_witness :
  is_Some (markers (sync_markers (λ _, "NaN") (λ _, PrimFloat.nan)
                      [bus15; bus27] (init_map mounted))
             !! "b2")
  ↔ Some (VStr "b2") ∈ ids [bus15; bus27].
Proof.
  apply markers_mirror_bus_ids;
    [reflexivity|apply string_ids_sample|apply placeable_sample].
Defined.

(** X12. A run of the effect on the empty list removes every marker: the
    table is empty afterwards, [remove] has been called on each marker it
    held, and no element is made. *)
Theorem empty_list_clears_markers
  (nts : float → string) (stn : string → float) (mv : map_view) :
  map_ready mv = true →
  markers (sync_markers nts stn [] mv) = ∅
  ∧ next_el (sync_markers nts stn [] mv) = next_el mv
  ∧ ∀ k m, markers mv !! k = Some m →
           Removed k (el m) ∈ calls (sync_markers nts stn [] mv).
Proof.
  intros Hready.
  assert (string_ids []) as Hstr by (by intros b ?%elem_of_nil).
  pose proof (placeable_nil nts stn) as Hok.
  split; [|split].
  - apply map_eq. intros k. rewrite lookup_empty.
    apply (sync_markers_absent nts stn [] mv Hready Hstr Hok k).
    apply not_elem_of_nil.
  - rewrite sync_markers_unfold by done. cbn [foldl].
    apply remove_all_next_el.
  - intros k m Hm.
    apply (sync_markers_removed nts stn [] mv Hready Hstr Hok k m); [|done].
    apply not_elem_of_nil.
Qed.

Lemma empty_list_clears_markers_witness :
  markers (sync_markers (λ _, "NaN") (λ _, PrimFloat.nan) []
             (sync_markers (λ _, "NaN") (λ _, PrimFloat.nan)
                [bus15; bus27] (init_map mounted))) = ∅.
Proof.
  apply (proj1 (empty_list_clears_markers (λ _, "NaN") (λ _, PrimFloat.nan)
                  (sync_markers (λ _, "NaN") (λ _, PrimFloat.nan)
                     [bus15; bus27] (init_map mounted))
                  eq_refl)).
Defined.

(** ** Elements are never shared *)

Lemma remove_if_gone_sub (buses : list row) (mv : map_view) (id k : string) m :
  markers (remove_if_gone buses mv id) !! k = Some m → markers mv !! k = Some m.
Proof. rewrite remove_if_gone_markers. by destruct (_ && _). Qed.

Lemma remove_if_gone_distinct (buses : list row) (mv : map_view) (id : string) :
  distinct_elements mv → distinct_elements (remove_if_gone buses mv id).
Proof.
  intros [Hlt Hinj]. split.
  - intros k m Hm%remove_if_gone_sub. rewrite remove_if_gone_next_el. eauto.
  - intros k1 k2 m1 m2 H1%remove_if_gone_sub H2%remove_if_gone_sub. eauto.
Qed.

Lemma placed_distinct (nts : float → string) (stn : string → float)
  (mv : map_view) (b : row) :
  distinct_elements mv → distinct_elements (placed nts stn mv b).
Proof.
  intros [Hlt Hinj]. set (key := to_string nts (b !! "id")).
  assert (∀ k m, markers (placed nts stn mv b) !! k = Some m →
            (k = key ∧ el m = match markers mv !! key with
                              | Some m0 => el m0
                              | None => next_el mv
                              end)
            ∨ (k ≠ key ∧ markers mv !! k = Some m)) as Hcase.
  { intros k m Hm. destruct (decide (k = key)) as [->|Hne].
    - left. split; [done|]. unfold key in Hm.
      rewrite placed_markers_eq in Hm. injection Hm as <-.
      fold key. by destruct (markers mv !! key).
    - right. split; [done|]. by rewrite placed_markers_ne in Hm. }
  assert (next_el (placed nts stn mv b)
          = match markers mv !! key with
            | Some _ => next_el mv
            | None => S (next_el mv)
            end) as Hnext.
  { unfold placed. fold key. by destruct (markers mv !! key). }
  split.
  - intros k m [[-> He]|[_ Hm]]%Hcase; rewrite Hnext.
    + rewrite He. destruct (markers mv !! key) as [m0|] eqn:E; [eauto|lia].
    + specialize (Hlt k m Hm). destruct (markers mv !! key); lia.
  - intros k1 k2 m1 m2 [[-> He1]|[Hk1 Hm1]]%Hcase [[-> He2]|[Hk2 Hm2]]%Hcase He;
      [done| | |eauto].
    + rewrite He1 in He. destruct (markers mv !! key) as [m0|] eqn:E.
      * by apply (Hinj key k2 m0 m2).
      * specialize (Hlt k2 m2 Hm2). lia.
    + rewrite He2 in He. destruct (markers mv !! key) as [m0|] eqn:E.
      * by apply (Hinj k1 key m1 m0).
      * specialize (Hlt k1 m1 Hm1). lia.
Qed.

(** The three ways the body of the loop can end: it went through, it threw
    before anything was made, or it threw on the marker just made. *)
Lemma place_bus_cases (nts : float → string) (stn : string → float)
  (mv : map_view) (b : row) :
  (place_bus nts stn mv b).1 = placed nts stn mv b
  ∨ (place_bus nts stn mv b).1 = mv
  ∨ (place_bus nts stn mv b).1
    = MapView (map_ready mv) (markers mv) (S (next_el mv)) (calls mv).
Proof.
  unfold place_bus, placed.
  destruct (markers mv !! to_string nts (b !! "id")) as [m|].
  - destruct (lnglat_throws _ _); simpl; auto.
  - destruct (inherited _); [simpl; auto|].
    destruct (lnglat_throws _ _); simpl; auto.
Qed.

Lemma place_bus_distinct (nts : float → string) (stn : string → float)
  (mv : map_view) (b : row) :
  distinct_elements mv → distinct_elements (place_bus nts stn mv b).1.
Proof.
  intros Hmv. destruct (place_bus_cases nts stn mv b) as [->|[->| ->]].
  - by apply placed_distinct.
  - done.
  - destruct Hmv as [Hlt Hinj]. split; simpl; [|done].
    intros k m Hm. specialize (Hlt k m Hm). lia.
Qed.

Lemma place_all_distinct (nts : float → string) (stn : string → float)
  (bs : list row) :
  ∀ mv : map_view,
    distinct_elements mv → distinct_elements (place_all nts stn mv bs).1.
Proof.
  induction bs as [|b bs IH]; intros mv Hmv; [done|].
  cbn [place_all]. pose proof (place_bus_distinct nts stn mv b Hmv) as H1.
  destruct (place_bus nts stn mv b) as [mv1 t]. simpl in *.
  destruct t; [done|]. by apply IH.
Qed.

Lemma sync_markers_distinct
  (nts : float → string) (stn : string → float)
  (buses : list row) (mv : map_view) :
  distinct_elements mv → distinct_elements (sync_markers nts stn buses mv).
Proof.
  intros Hmv. unfold sync_markers, sync_run.
  destruct (map_ready mv); [|done].
  assert (∀ ks mv0, distinct_elements mv0 →
            distinct_elements (foldl (remove_if_gone buses) mv0 ks)) as Hrem.
  { induction ks as [|id ks IH]; intros mv0 H0; [done|].
    cbn [foldl]. by apply IH, remove_if_gone_distinct. }
  by apply place_all_distinct, Hrem.
Qed.

(** X13. If no two markers share an element and the counter is beyond every
    element in use, the same holds after a run of the effect, whatever the
    list of buses: a new marker never lands on an element that is in use. *)
Theorem elements_stay_distinct
  (nts : float → string) (stn : string → float)
  (buses : list row) (mv : map_view) :
  distinct_elements mv → distinct_elements (sync_markers nts stn buses mv).
Proof. apply sync_markers_distinct. Qed.

Lemma distinct_elements_mounted : distinct_elements (init_map mounted).
Proof. split; intros k; intros; simplify_map_eq. Qed.

Lemma elements_stay_distinct_witness :
  distinct_elements
    (sync_markers (λ _, "NaN") (λ _, PrimFloat.nan) [bus15; bus27]
       (init_map mounted)).
Proof. apply elements_stay_distinct, distinct_elements_mounted. Defined.

(** ** Where a marker ends up *)

Section final_position.
Context (nts : float → string) (stn : string → float).

Lemma last_position_absent (bs : list row) (k : string) :
  k ∉ keys nts bs → filter (λ b : row, to_string nts (b !! "id") = k) bs = [].
Proof.
  intros Hk. induction bs as [|b bs IH]; [done|].
  unfold keys in Hk. rewrite fmap_cons, not_elem_of_cons in Hk.
  destruct Hk as [Hne Hk]. rewrite filter_cons, decide_False by done.
  by apply IH.
Qed.

Lemma last_position_cons (b : row) (bs : list row) (k : string) pos :
  last_position nts stn bs k = Some pos →
  last_position nts stn (b :: bs) k = Some pos.
Proof.
  unfold last_position. rewrite filter_cons.
  destruct (decide (to_string nts (b !! "id") = k)); [|done].
  rewrite last_cons. by destruct (last _).
Qed.

Lemma placed_all_last_position (bs : list row) (mv : map_view) (k : string) :
  k ∈ keys nts bs →
  ∃ m, markers (foldl (placed nts stn) mv bs) !! k = Some m
       ∧ last_position nts stn bs k = Some (lngLat m).
Proof.
  revert mv. induction bs as [|b bs IH]; intros mv Hk.
  - by apply elem_of_nil in Hk.
  - cbn [foldl]. destruct (decide (k ∈ keys nts bs)) as [Hin|Hout].
    + destruct (IH (placed nts stn mv b) Hin) as (m & Hm & Hp).
      exists m. split; [done|]. by apply last_position_cons.
    + unfold keys in Hk. rewrite fmap_cons in Hk.
      apply elem_of_cons in Hk as [->|Hk]; [|done].
      rewrite placed_all_frame by done. rewrite placed_markers_eq.
      eexists. split; [done|]. unfold last_position.
      rewrite filter_cons, decide_True by done.
      rewrite (last_position_absent bs _ Hout). simpl.
      by destruct (markers mv !! _).
Qed.

End final_position.

(** X14. Once the map is there, after a run of the effect on a list that
    goes through without a throw (no key an inherited name, every position
    one [setLngLat] takes), the marker filed under the key of a bus of the
    list is where the last bus of that key in the list is: when the list
    holds an id more than once, the last entry decides. *)
Theorem marker_ends_at_last_bus
  (nts : float → string) (stn : string → float)
  (buses : list row) (mv : map_view) (k : string) :
  map_ready mv = true → placeable nts stn buses → k ∈ keys nts buses →
  sync_throws nts stn buses mv = false
  ∧ ∃ m, markers (sync_markers nts stn buses mv) !! k = Some m
         ∧ last_position nts stn buses k = Some (lngLat m).
Proof.
  intros Hready Hok Hk. split; [by apply sync_throws_placeable|].
  rewrite sync_markers_unfold by done.
  by apply placed_all_last_position.
Qed.

Lemma placeable_twice_sample :
  placeable (λ _, "NaN") (λ _, PrimFloat.nan) [bus15; bus27; bus15_moved].
Proof.
  intros b Hb. apply elem_of_cons in Hb as [->|Hb]; [by split|].
  apply elem_of_cons in Hb as [->|Hb]; [by split|].
  apply list_elem_of_singleton in Hb as ->. by split.
Defined.

Lemma marker_ends_at_last_bus_witness :
  sync_throws (λ _, "NaN") (λ _, PrimFloat.nan)
    [bus15; bus27; bus15_moved] (init_map mounted) = false
  ∧ ∃ m, markers (sync_markers (λ _, "NaN") (λ _, PrimFloat.nan)
                    [bus15; bus27; bus15_moved] (init_map mounted))
           !! "b1" = Some m
         ∧ last_position (λ _, "NaN") (λ _, PrimFloat.nan)
             [bus15; bus27; bus15_moved] "b1"
           = Some (lngLat m).
Proof.
  apply marker_ends_at_last_bus;
    [reflexivity|apply placeable_twice_sample|by left].
Defined.

(** ** Running the effect again on the same list *)

Lemma remove_all_nothing_gone (buses : list row) (ks : list string) (mv : map_view) :
  (∀ k, k ∈ ks → gone buses k = false) →
  foldl (remove_if_gone buses) mv ks = mv.
Proof.
  induction ks as [|id ks IH]; intros Hks; [done|].
  cbn [foldl]. unfold remove_if_gone at 2. rewrite Hks by (by left).
  apply IH. intros k Hk. apply Hks. by right.
Qed.

Lemma placed_all_only_moves (nts : float → string) (stn : string → float)
  (bs : list row) :
  ∀ mv : map_view,
    (∀ k, k ∈ keys nts bs → is_Some (markers mv !! k)) →
    next_el (foldl (placed nts stn) mv bs) = next_el mv
    ∧ ∃ L, calls (foldl (placed nts stn) mv bs) = calls mv ++ L
           ∧ length L = length bs
           ∧ ∀ c, c ∈ L → ∃ k e, c = Moved k e.
Proof.
  induction bs as [|b bs IH]; intros mv Hall.
  - split; [done|]. exists []. rewrite app_nil_r. split; [done|]. split; [done|].
    by intros c ?%elem_of_nil.
  - cbn [foldl].
    destruct (Hall (to_string nts (b !! "id"))) as [m Hm]; [by left|].
    destruct (IH (placed nts stn mv b)) as (Hn & L & Hc & Hlen & HL).
    { intros k Hk. destruct (Hall k) as [m0 H0]; [by right|].
      destruct (placed_keeps nts stn mv b k m0 H0) as (m' & H' & _).
      by exists m'. }
    split.
    + rewrite Hn. unfold placed. by rewrite Hm.
    + exists (Moved (to_string nts (b !! "id")) (el m) :: L).
      rewrite Hc, placed_calls, Hm, <- app_assoc. split; [done|].
      split; [simpl; by rewrite Hlen|].
      intros c [->|Hin]%elem_of_cons; [by eexists _, _|by apply HL].
Qed.

(** X15. Once the map is there, running the effect a second time on the
    same list of buses (string ids, no key an inherited name, every
    position one [setLngLat] takes) throws in neither run, leaves the marker
    table as the first run left it, makes no element, and calls [setLngLat]
    once per bus and nothing else. *)
Theorem second_run_only_moves
  (nts : float → string) (stn : string → float)
  (buses : list row) (mv : map_view) :
  map_ready mv = true → string_ids buses → placeable nts stn buses →
  sync_throws nts stn buses mv = false
  ∧ sync_throws nts stn buses (sync_markers nts stn buses mv) = false
  ∧ markers (sync_markers nts stn buses (sync_markers nts stn buses mv))
    = markers (sync_markers nts stn buses mv)
  ∧ next_el (sync_markers nts stn buses (sync_markers nts stn buses mv))
    = next_el (sync_markers nts stn buses mv)
  ∧ ∃ L, calls (sync_markers nts stn buses (sync_markers nts stn buses mv))
         = calls (sync_markers nts stn buses mv) ++ L
         ∧ length L = length buses
         ∧ ∀ c, c ∈ L → ∃ k e, c = Moved k e.
Proof.
  intros Hready Hstr Hok.
  set (mv1 := sync_markers nts stn buses mv).
  assert (map_ready mv1 = true) as Hready1 by (by apply sync_markers_ready).
  split; [by apply sync_throws_placeable|].
  split; [by apply sync_throws_placeable|].
  assert (∀ k, k ∈ keys nts buses → is_Some (markers mv1 !! k)) as Hall.
  { intros k Hk. apply (sync_markers_present nts stn buses mv Hready Hstr Hok k).
    by apply (keys_of_string_ids nts buses Hstr). }
  assert (foldl (remove_if_gone buses) mv1 (map_to_list (markers mv1)).*1 = mv1)
    as Hrem.
  { apply remove_all_nothing_gone. intros k Hk%marker_keys.
    destruct (gone buses k) eqn:Hg; [|done]. apply gone_iff in Hg.
    unfold mv1 in Hk.
    rewrite (sync_markers_absent nts stn buses mv Hready Hstr Hok k Hg) in Hk.
    by destruct Hk. }
  rewrite (sync_markers_unfold nts stn buses mv1 Hready1 Hok), Hrem.
  destruct (placed_all_only_moves nts stn buses mv1 Hall) as (Hn & HL).
  split; [|by split].
  apply map_eq. intros k. destruct (decide (k ∈ keys nts buses)) as [Hk|Hk].
  - destruct (Hall k Hk) as [m1 Hm1].
    destruct (placed_all_keeps nts stn buses mv1 k m1 Hm1) as (m2 & Hm2 & He & Hp).
    destruct (placed_all_last_position nts stn buses mv1 k Hk) as (m3 & Hm3 & Hl3).
    destruct (placed_all_last_position nts stn buses
                (foldl (remove_if_gone buses) mv (map_to_list (markers mv)).*1)
                k Hk) as (m4 & Hm4 & Hl4).
    rewrite <- (sync_markers_unfold nts stn buses mv Hready Hok) in Hm4.
    fold mv1 in Hm4. rewrite Hm2, Hm1.
    assert (lngLat m2 = lngLat m1) as Hl by congruence.
    destruct m1, m2. simpl in *. congruence.
  - by apply placed_all_frame.
Qed.

Lemma second_run_only_moves_witness :
  markers (sync_markers (λ _, "NaN") (λ _, PrimFloat.nan) [bus15; bus27]
             (sync_markers (λ _, "NaN") (λ _, PrimFloat.nan) [bus15; bus27]
                (init_map mounted)))
  = markers (sync_markers (λ _, "NaN") (λ _, PrimFloat.nan) [bus15; bus27]
               (init_map mounted)).
Proof.
  apply (proj1 (proj2 (proj2
           (second_run_only_moves (λ _, "NaN") (λ _, PrimFloat.nan)
              [bus15; bus27] (init_map mounted) eq_refl string_ids_sample
              placeable_sample)))).
Defined.

(** ** The popup *)

(** X16. The popup of a marker is written when the marker is created and
    never again: a bus that comes up alone in a first list, with a key that
    is no inherited name and a position [setLngLat] takes, gets the popup
    made from its fields then, and keeps that text through every later list
    that goes through without a throw and holds its id, whatever route or
    stop those lists give it. *)
Theorem popup_keeps_first_text
  (nts : float → string) (stn : string → float)
  (b : row) (ps : list (list row)) (mv : map_view) (k : string) :
  map_ready mv = true → markers mv !! k = None →
  b !! "id" = Some (VStr k) → placeable nts stn [b] →
  (∀ bs, bs ∈ ps →
         string_ids bs ∧ placeable nts stn bs ∧ Some (VStr k) ∈ ids bs) →
  ∃ m, markers (render nts stn ([b] :: ps) mv) !! k = Some m
       ∧ popup m = popup_html nts b.
Proof.
  intros Hready Hm Hb Hok Hps.
  rewrite render_cons by (by apply sync_throws_placeable).
  assert (markers (sync_markers nts stn [b] mv) !! k
          = Some (Marker (next_el mv)
                    (to_number stn (b !! "lng"), to_number stn (b !! "lat"))
                    (popup_html nts b)))
    as H1.
  { rewrite sync_markers_unfold by done. cbn [foldl].
    set (mv1 := foldl (remove_if_gone [b]) mv (map_to_list (markers mv)).*1).
    assert (to_string nts (b !! "id") = k) as Hk by (by rewrite Hb).
    rewrite <- Hk, placed_markers_eq, Hk.
    unfold mv1. rewrite remove_all_markers, Hm, remove_all_next_el.
    by destruct (_ && _). }
  destruct (render_keeps_marker nts stn k ps (sync_markers nts stn [b] mv) _
              (sync_markers_ready nts stn [b] mv Hready Hok) Hps H1)
    as (m' & Hm' & _ & Hp & _).
  by exists m'.
Qed.

Lemma popup_keeps_first_text_witness :
  ∃ m, markers (render (λ _, "NaN") (λ _, PrimFloat.nan)
                  [[bus15]; [bus15_newer; bus27]]
                  (init_map mounted)) !! "b1" = Some m
       ∧ popup m = popup_html (λ _, "NaN") bus15.
Proof.
  apply popup_keeps_first_text; try reflexivity.
  - intros r ->%list_elem_of_singleton. by split.
  - intros bs ->%list_elem_of_singleton. split; [|split; [|by left]].
    + intros r Hr. apply elem_of_cons in Hr as [->|Hr]; [by exists "b1"|].
      apply list_elem_of_singleton in Hr as ->. by exists "b2".
    + intros r Hr. apply elem_of_cons in Hr as [->|Hr]; [by split|].
      apply list_elem_of_singleton in Hr as ->. by split.
Defined.

(** ** Ids that are not strings *)

(** X17. Once the map is there, on a list that goes through the loop
    without a throw: a bus whose key is held by no bus as a string id (its
    id is a number, or missing) does not keep its marker; the marker filed
    under its key is removed and a new one is made for it on a new
    element. *)
Theorem unmatched_key_is_recreated
  (nts : float → string) (stn : string → float)
  (buses : list row) (mv : map_view) (k : string) (m : marker) :
  map_ready mv = true → distinct_elements mv → placeable nts stn buses →
  markers mv !! k = Some m →
  k ∈ keys nts buses → Some (VStr k) ∉ ids buses →
  sync_throws nts stn buses mv = false
  ∧ Removed k (el m) ∈ calls (sync_markers nts stn buses mv)
  ∧ ∃ m', markers (sync_markers nts stn buses mv) !! k = Some m'
          ∧ el m' ≠ el m
          ∧ Created k (el m') ∈ calls (sync_markers nts stn buses mv).
Proof.
  intros Hready [Hlt _] Hok Hm Hk Hout.
  split; [by apply sync_throws_placeable|].
  rewrite sync_markers_unfold by done.
  pose proof (proj2 (gone_iff buses k) Hout) as Hg.
  assert (k ∈ (map_to_list (markers mv)).*1) as Hks by (apply marker_keys; eauto).
  set (mv1 := foldl (remove_if_gone buses) mv (map_to_list (markers mv)).*1).
  assert (markers mv1 !! k = None) as H1.
  { unfold mv1. by rewrite remove_all_markers, Hg, bool_decide_eq_true_2. }
  split.
  - apply placed_all_calls_incl. by apply remove_all_calls_removed.
  - destruct (placed_all_creates nts stn buses mv1 k H1 Hk) as (m' & H' & He & Hc).
    exists m'. split; [done|]. split; [|done].
    unfold mv1 in He. rewrite remove_all_next_el in He.
    specialize (Hlt k m Hm). lia.
Qed.

Lemma unmatched_key_is_recreated_witness :
  sync_throws (λ _, "NaN") (λ _, PrimFloat.nan) [no_id_bus]
    (sync_markers (λ _, "NaN") (λ _, PrimFloat.nan) [no_id_bus]
       (init_map mounted)) = false
  ∧ Removed "undefined" 0
    ∈ calls (sync_markers (λ _, "NaN") (λ _, PrimFloat.nan) [no_id_bus]
               (sync_markers (λ _, "NaN") (λ _, PrimFloat.nan) [no_id_bus]
                  (init_map mounted)))
  ∧ ∃ m', markers (sync_markers (λ _, "NaN") (λ _, PrimFloat.nan) [no_id_bus]
                     (sync_markers (λ _, "NaN") (λ _, PrimFloat.nan)
                        [no_id_bus] (init_map mounted)))
            !! "undefined" = Some m'
          ∧ el m' ≠ 0
          ∧ Created "undefined" (el m')
            ∈ calls (sync_markers (λ _, "NaN") (λ _, PrimFloat.nan) [no_id_bus]
                       (sync_markers (λ _, "NaN") (λ _, PrimFloat.nan)
                          [no_id_bus] (init_map mounted))).
Proof.
  apply (unmatched_key_is_recreated (λ _, "NaN") (λ _, PrimFloat.nan)
           [no_id_bus]
           (sync_markers (λ _, "NaN") (λ _, PrimFloat.nan) [no_id_bus]
              (init_map mounted))
           "undefined"
           (Marker 0 (74.75%float, 12.875%float)
              "<b>Route 15</b><br>Kankanady")).
  - reflexivity.
  - apply sync_markers_distinct, distinct_elements_mounted.
  - intros r ->%list_elem_of_singleton. by split.
  - reflexivity.
  - by left.
  - intros H. apply list_elem_of_singleton in H. discriminate H.
Defined.

(** * The map is made once *)

(** X18. Once the map is there, the first effect leaves it alone: the map
    keeps the style and zoom it was made with, whatever [dark] and [zoom]
    later renders pass, and the effect always leaves a map behind. *)
Theorem map_created_once
  (dark dark' : bool) (z z' : option float)
  (current : option MapInit.map_options) :
  MapInit.create_map dark' z' (MapInit.create_map dark z current)
  = MapInit.create_map dark z current
  ∧ is_Some (MapInit.create_map dark z current).
Proof. destruct current as [m|]; simpl; split; eauto. Qed.

(** * An Update touches one entry *)

Lemma replace_by_one (n : row) (x : string) (s : list row) :
  n !! "id" = Some (VStr x) → unique_ids s → Some (VStr x) ∈ ids s →
  ∃ i b, s !! i = Some b ∧ b !! "id" = Some (VStr x)
         ∧ replace_by n <$> s = <[i := n]> s.
Proof.
  intros Hn. unfold unique_ids, ids.
  induction s as [|b s IH]; intros Hu Hin.
  - by apply elem_of_nil in Hin.
  - rewrite fmap_cons in Hu, Hin. apply NoDup_cons in Hu as [Hb Hu].
    rewrite fmap_cons. unfold replace_by at 1. rewrite Hn.
    destruct (strict_eq (b !! "id") (Some (VStr x))) eqn:E.
    + apply strict_eq_str_r in E. exists 0, b. split; [done|]. split; [done|].
      simpl. f_equal. apply replace_by_absent. intros b' Hb'.
      rewrite Hn. destruct (strict_eq (b' !! "id") (Some (VStr x))) eqn:E'; [|done].
      apply strict_eq_str_r in E'. exfalso. apply Hb. rewrite E, <- E'.
      by apply list_elem_of_fmap_2.
    + apply elem_of_cons in Hin as [Hin|Hin].
      * rewrite <- Hin in E. simpl in E. by rewrite String.eqb_refl in E.
      * destruct (IH Hu Hin) as (i & b' & Hi & Hb' & Heq).
        exists (S i), b'. split; [done|]. split; [done|]. simpl. by rewrite Heq.
Qed.

(** X19. On a store that holds no id twice, an Update for an id the store
    holds changes exactly one entry: the store afterwards is the store
    before with the payload written at the index of that id. *)
Theorem update_writes_one_entry (u : change) (s : list row) (x : string) :
  eventType u = "UPDATE" → new u !! "id" = Some (VStr x) →
  unique_ids s → Some (VStr x) ∈ ids s →
  ∃ i b, s !! i = Some b ∧ b !! "id" = Some (VStr x)
         ∧ on_change u s = <[i := new u]> s.
Proof.
  intros Hu Hn Hs Hin. rewrite (on_change_UPDATE_replace u s Hu).
  by apply (replace_by_one _ x).
Qed.

Lemma update_writes_one_entry_witness :
  ∃ i b, [bus15; bus27] !! i = Some b ∧ b !! "id" = Some (VStr "b2")
         ∧ on_change (update_of bus27) [bus15; bus27]
           = <[i := new (update_of bus27)]> [bus15; bus27].
Proof.
  apply (update_writes_one_entry _ _ "b2"); try reflexivity.
  - apply unique_ids_sample.
  - right. by left.
Defined.
